(** * PII redaction engine: shallow embedding and verification

    Embedding of [PII/pii_patterns.py], [PII/pii_redactor.py] and
    [PII/pii_redactor_advanced.py].

    Conventions.
    - A Python [str] is a list of characters.  Characters are the code
      points 0..255 (Latin-1), so that the Unicode classes [\w], [\s]
      and [\d] of the [re] module can be written out completely.
    - The two instance dictionaries of [PIIRedactor] are keyed by the
      session identifier and are finite maps.  A session's token mapping
      is iterated by the code ([_get_or_create_token], [restore]); it is
      an insertion-ordered dictionary, kept as an association list with
      unique keys.
    - A Python [KeyError] / [AttributeError] is an explicit failure of
      the embedded function; the object is left as it was. *)

From Stdlib Require Import Ascii String NArith List Bool Lia.
From stdpp Require Import base option list gmap.
Import ListNotations.

Local Open Scope N_scope.
Local Open Scope list_scope.

(** ** Python strings *)

Abbreviation str := (list ascii).

(** String literals of the source. *)
Definition py (s : string) : str := list_ascii_of_string s.

Definition chr_eqb (a b : ascii) : bool := Ascii.eqb a b.

(** [s.startswith(p)] *)
Fixpoint startswith (s p : str) {struct p} : bool :=
  match p, s with
  | [], _ => true
  | _ :: _, [] => false
  | a :: p', b :: s' => chr_eqb a b && startswith s' p'
  end.

(** [s.endswith(p)] *)
Definition endswith (s p : str) : bool := startswith (rev s) (rev p).

(** [sub in s]: substring containment. *)
Fixpoint str_in (sub s : str) : bool :=
  startswith s sub || match s with [] => false | _ :: s' => str_in sub s' end.

(** [s.replace(old, new)] for a non-empty [old]: occurrences are taken
    from left to right and do not overlap.  [skip] counts the characters
    of the occurrence just replaced that are still to be dropped. *)
Fixpoint replace_go (old new : str) (skip : nat) (s : str) : str :=
  match s with
  | [] => []
  | c :: s' =>
      match skip with
      | S k => replace_go old new k s'
      | O =>
          if startswith s old
          then new ++ replace_go old new (length old - 1) s'
          else c :: replace_go old new 0 s'
      end
  end.

(** [s.replace(old, new)].  With an empty [old] Python puts [new] before
    every character and at the end. *)
Definition replace (s old new : str) : str :=
  match old with
  | [] => new ++ flat_map (fun c => c :: new) s
  | _ :: _ => replace_go old new 0 s
  end.

(** [token.rsplit('_', 1)[0]]: the part before the last underscore, the
    whole string when there is none. *)
Fixpoint rsplit_head (s : str) : option str :=
  match s with
  | [] => None
  | c :: s' =>
      match rsplit_head s' with
      | Some h => Some (c :: h)
      | None => if chr_eqb c "_" then Some [] else None
      end
  end.

Definition rsplit1_0 (s : str) : str := default s (rsplit_head s).

(** [str(n)] for a non-negative integer: decimal digits, most
    significant first. *)
Definition digit_chr (d : N) : ascii := ascii_of_N (48 + d).

Fixpoint str_N_go (fuel : nat) (n : N) (acc : str) : str :=
  match fuel with
  | O => acc
  | S fuel' =>
      if n <? 10 then digit_chr n :: acc
      else str_N_go fuel' (n / 10) (digit_chr (n mod 10) :: acc)
  end.

Definition str_N (n : N) : str := str_N_go (S (N.to_nat (N.log2 n))) n [].

(** ** Insertion-ordered dictionaries *)

Section Dict.
Context {V : Type}.

(** [d[k] = v]: an existing key keeps its place. *)
Fixpoint dict_set (d : list (str * V)) (k : str) (v : V) : list (str * V) :=
  match d with
  | [] => [(k, v)]
  | (k', v') :: d' =>
      if decide (k' = k) then (k', v) :: d' else (k', v') :: dict_set d' k v
  end.

(** [d.get(k)] *)
Fixpoint dict_get (d : list (str * V)) (k : str) : option V :=
  match d with
  | [] => None
  | (k', v') :: d' => if decide (k' = k) then Some v' else dict_get d' k
  end.

Definition dict_keys (d : list (str * V)) : list str := map fst d.
End Dict.

(** ** Regular expressions of the [re] module

    The fragment used by [PII_PATTERNS]: character classes, the word
    boundary [\b], concatenation, ordered alternation and greedy
    repetition [{lo,hi}] ([hi] absent for an unbounded one).  Groups only
    delimit sub-expressions here ([match.group(0)] is all the code reads),
    so they leave no trace in the syntax. *)

Inductive regex : Type :=
| Cls (p : ascii -> bool)
| Bnd
| Eps
| Cat (r1 r2 : regex)
| Alt (r1 r2 : regex)
| Rep (r : regex) (lo : nat) (hi : option nat).

Definition code (c : ascii) : N := N_of_ascii c.

Definition in_range (lo hi : ascii) (c : ascii) : bool :=
  (code lo <=? code c) && (code c <=? code hi).

Definition one_of (s : string) (c : ascii) : bool :=
  existsb (chr_eqb c) (py s).

Definition cls_or (p q : ascii -> bool) (c : ascii) : bool := p c || q c.

Infix "|||" := cls_or (at level 50, left associativity).

(** [[0-9]]; also [\d], whose only members below code point 256 are the
    ASCII digits. *)
Definition digit : ascii -> bool := in_range "0" "9".
Definition upper : ascii -> bool := in_range "A" "Z".
Definition lower : ascii -> bool := in_range "a" "z".
Definition alpha : ascii -> bool := upper ||| lower.

Definition code_in (lo hi : N) (c : ascii) : bool :=
  (lo <=? code c) && (code c <=? hi).

(** [\s] on code points below 256. *)
Definition space : ascii -> bool :=
  code_in 9 13 ||| code_in 28 32 ||| code_in 133 133 ||| code_in 160 160.

(** [\w] on code points below 256: alphanumeric characters and the
    underscore. *)
Definition word : ascii -> bool :=
  digit ||| upper ||| one_of "_" ||| lower
  ||| code_in 170 170 ||| code_in 178 179 ||| code_in 181 181
  ||| code_in 185 186 ||| code_in 188 190 ||| code_in 192 214
  ||| code_in 216 246 ||| code_in 248 255.

Definition is_word (o : option ascii) : bool :=
  match o with Some c => word c | None => false end.

Definition orelse {A} (x y : option A) : option A :=
  match x with Some _ => x | None => y end.

(** The continuation-passing matchers below take the character before the
    current position, the rest of the subject and the continuation [k]
    for what remains to be matched; the result is the rest of the subject
    after the whole match. *)
Abbreviation cont := (option ascii -> str -> option str).

(** Greedy repetition of [body]: at most [n] more iterations, of which
    [lo] are still required.  One more iteration is tried first, and
    given back when the rest cannot be matched after it. *)
Fixpoint rep_loop (body : option ascii -> str -> cont -> option str) (k : cont)
    (n lo : nat) (prev : option ascii) (s : str) {struct n} : option str :=
  match n with
  | O => if Nat.eqb lo 0 then k prev s else None
  | S n' =>
      orelse
        (body prev s (fun prev' s' => rep_loop body k n' (Nat.pred lo) prev' s'))
        (if Nat.eqb lo 0 then k prev s else None)
  end.

(** Backtracking matcher: alternatives are tried in order, repetitions
    are greedy.  An unbounded repetition is cut at the length of the rest
    of the subject, which no sequence of iterations that each consume a
    character can exceed. *)
Fixpoint mt (r : regex) (prev : option ascii) (s : str) (k : cont) {struct r}
    : option str :=
  match r with
  | Cls p =>
      match s with
      | c :: s' => if p c then k (Some c) s' else None
      | [] => None
      end
  | Bnd => if xorb (is_word prev) (is_word (head s)) then k prev s else None
  | Eps => k prev s
  | Cat r1 r2 => mt r1 prev s (fun prev' s' => mt r2 prev' s' k)
  | Alt r1 r2 => orelse (mt r1 prev s k) (mt r2 prev s k)
  | Rep r1 lo hi =>
      rep_loop (mt r1) k (match hi with Some h => h | None => length s end)
        lo prev s
  end.

(** [re.finditer(pattern, s)], as the list of the [group(0)] of its
    matches: the subject is scanned from left to right and the search
    resumes where the last match ended. *)
Fixpoint finditer_go (r : regex) (skip : nat) (prev : option ascii) (s : str)
    : list str :=
  match s with
  | [] => []
  | c :: s' =>
      match skip with
      | S k => finditer_go r k (Some c) s'
      | O =>
          match mt r prev s (fun _ rest => Some rest) with
          | Some rest =>
              let n := (length s - length rest)%nat in
              take n s :: finditer_go r (n - 1) (Some c) s'
          | None => finditer_go r 0 (Some c) s'
          end
      end
  end.

Definition finditer (r : regex) (s : str) : list str := finditer_go r 0 None s.

(** Pattern syntax. *)
Definition cat (rs : list regex) : regex := fold_right Cat Eps rs.
Definition alt (rs : list regex) : regex :=
  match rs with
  | [] => Cls (fun _ => false)
  | r :: rs' => fold_left Alt rs' r
  end.
Definition lit (s : string) : regex := cat (map (fun c => Cls (chr_eqb c)) (py s)).
Definition opt (r : regex) : regex := Rep r 0 (Some 1%nat).
Definition plus (r : regex) : regex := Rep r 1 None.
Definition times (n : nat) (r : regex) : regex := Rep r n (Some n).

(** ** [pii_patterns.py] *)

Record config := {
  pattern : regex;
  label : str;
  description : str;
}.

(** [\b[A-Za-z0-9._%+-]+@[A-Za-z0-9.-]+\.[A-Z|a-z]{2,}\b] *)
Definition email_pattern : regex :=
  cat [Bnd; plus (Cls (alpha ||| digit ||| one_of "._%+-")); lit "@";
       plus (Cls (alpha ||| digit ||| one_of ".-")); lit ".";
       Rep (Cls (upper ||| one_of "|" ||| lower)) 2 None; Bnd].

(** [\b(?:\+?1[-.]?)?\(?([0-9]{3})\)?[-.]?([0-9]{3})[-.]?([0-9]{4})\b] *)
Definition phone_pattern : regex :=
  cat [Bnd; opt (cat [opt (lit "+"); lit "1"; opt (Cls (one_of "-."))]);
       opt (lit "("); times 3 (Cls digit); opt (lit ")");
       opt (Cls (one_of "-.")); times 3 (Cls digit);
       opt (Cls (one_of "-.")); times 4 (Cls digit); Bnd].

(** [\b\d{3}-\d{2}-\d{4}\b] *)
Definition ssn_pattern : regex :=
  cat [Bnd; times 3 (Cls digit); lit "-"; times 2 (Cls digit); lit "-";
       times 4 (Cls digit); Bnd].

(** [\b\d{4}[-\s]?\d{4}[-\s]?\d{4}[-\s]?\d{4}\b] *)
Definition credit_card_pattern : regex :=
  cat [Bnd; times 4 (Cls digit); opt (Cls (one_of "-" ||| space));
       times 4 (Cls digit); opt (Cls (one_of "-" ||| space));
       times 4 (Cls digit); opt (Cls (one_of "-" ||| space));
       times 4 (Cls digit); Bnd].

(** [\b(?:[0-9]{1,3}\.){3}[0-9]{1,3}\b] *)
Definition ip_address_pattern : regex :=
  cat [Bnd; times 3 (cat [Rep (Cls digit) 1 (Some 3%nat); lit "."]);
       Rep (Cls digit) 1 (Some 3%nat); Bnd].

(** [\b(?:0[1-9]|1[0-2])[/-](?:0[1-9]|[12][0-9]|3[01])[/-](?:19|20)\d{2}\b] *)
Definition date_of_birth_pattern : regex :=
  cat [Bnd;
       alt [cat [lit "0"; Cls (in_range "1" "9")];
            cat [lit "1"; Cls (in_range "0" "2")]];
       Cls (one_of "/-");
       alt [cat [lit "0"; Cls (in_range "1" "9")];
            cat [Cls (one_of "12"); Cls digit];
            cat [lit "3"; Cls (one_of "01")]];
       Cls (one_of "/-");
       alt [lit "19"; lit "20"]; times 2 (Cls digit); Bnd].

(** [\b(?:[A-Z][a-z]+ ){1,2}[A-Z][a-z]+\b] *)
Definition name_pattern : regex :=
  cat [Bnd; Rep (cat [Cls upper; plus (Cls lower); lit " "]) 1 (Some 2%nat);
       Cls upper; plus (Cls lower); Bnd].

(** [\b\d+\s+[A-Za-z\s]+(?:Street|St|Avenue|Ave|Road|Rd|Boulevard|Blvd|Lane|Ln|Drive|Dr)\b] *)
Definition address_pattern : regex :=
  cat [Bnd; plus (Cls digit); plus (Cls space); plus (Cls (alpha ||| space));
       alt [lit "Street"; lit "St"; lit "Avenue"; lit "Ave"; lit "Road";
            lit "Rd"; lit "Boulevard"; lit "Blvd"; lit "Lane"; lit "Ln";
            lit "Drive"; lit "Dr"];
       Bnd].

(** The dictionary [PII_PATTERNS], in the order it is written. *)
Definition PII_PATTERNS : list (str * config) :=
  [ (py "email",
      {| pattern := email_pattern; label := py "EMAIL";
         description := py "Email address" |});
    (py "phone",
      {| pattern := phone_pattern; label := py "PHONE";
         description := py "Phone number" |});
    (py "ssn",
      {| pattern := ssn_pattern; label := py "SSN";
         description := py "Social Security Number" |});
    (py "credit_card",
      {| pattern := credit_card_pattern; label := py "CREDIT_CARD";
         description := py "Credit card number" |});
    (py "ip_address",
      {| pattern := ip_address_pattern; label := py "IP_ADDRESS";
         description := py "IP address" |});
    (py "date_of_birth",
      {| pattern := date_of_birth_pattern; label := py "DOB";
         description := py "Date of birth" |});
    (py "name",
      {| pattern := name_pattern; label := py "PERSON";
         description := py "Person name" |});
    (py "address",
      {| pattern := address_pattern; label := py "ADDRESS";
         description := py "Physical address" |}) ].

Definition KNOWN_NAMES : list str :=
  [ py "Garlapati Venkata Srinivas";
    py "Akhil Shanmukha Kothamasu";
    py "Madhu Vutukuri";
    py "Srinivas";
    py "Akhil";
    py "Madhu" ].

(** ** [pii_redactor.py] *)

(** One entry of the metadata [redact] returns: the dictionary with the
    keys ['type'], ['original'] and ['description'] (the last one is
    [about] here, [description] being the field of [config]). *)
Record redaction := {
  type : str;
  original : str;
  about : str;
}.

(** The attributes of a [PIIRedactor]. *)
Record PIIRedactor := {
  redaction_map : gmap str (list (str * str));
  token_counters : gmap str (gmap str N);
}.

(** [get_redaction_stats]'s result. *)
Record stats := {
  total_redactions : nat;
  by_type : gmap str nat;
}.

(** [export_redaction_map]'s result: the empty dictionary, or the three
    entries ['session_id'], ['redaction_map'] and ['stats']. *)
Inductive export : Type :=
| ExportEmpty
| Export (session_id : str) (session_map : list (str * str)) (st : stats).

(** [PIIRedactor.__init__] *)
Definition init : PIIRedactor :=
  {| redaction_map := ∅; token_counters := ∅ |}.

(** [f"[{token}]"] *)
Definition bracketed (token : str) : str := py "[" ++ token ++ py "]".

(** [PIIRedactor._get_or_create_token].  [None] is the [KeyError] of
    [self.redaction_map[session_id]] or [self.token_counters[session_id]]
    for a session the object does not hold; both are raised before
    anything is written. *)
Definition _get_or_create_token (self : PIIRedactor)
    (session_id pii_type original_value : str) : option (PIIRedactor * str) :=
  session_map ← redaction_map self !! session_id;
  match find (fun tv => bool_decide (tv.2 = original_value)) session_map with
  | Some (token, _) => Some (self, token)
  | None =>
      counters ← token_counters self !! session_id;
      let counter := default 0 (counters !! pii_type) + 1 in
      let token := pii_type ++ py "_" ++ str_N counter in
      Some ({| redaction_map :=
                 <[session_id := dict_set session_map token original_value]>
                   (redaction_map self);
               token_counters :=
                 <[session_id := <[pii_type := counter]> counters]>
                   (token_counters self) |},
            token)
  end.

(** The working state of one [redact] call: the object, [redacted_text]
    and [redactions]. *)
Record work := {
  w_self : PIIRedactor;
  redacted_text : str;
  redactions : gmap str redaction;
}.

(** The three statements both loops of [redact] end with: get or create
    the token, replace the value everywhere, record the metadata. *)
Definition redact_value (session_id ty desc value : str) (w : work)
    : option work :=
  '(self, token) ← _get_or_create_token (w_self w) session_id ty value;
  Some {| w_self := self;
          redacted_text := replace (redacted_text w) value (bracketed token);
          redactions :=
            <[token := {| type := ty; original := value; about := desc |}]>
              (redactions w) |}.

(** A [for] loop whose body may raise. *)
Fixpoint for_each {A B} (body : A -> B -> option B) (l : list A) (b : B)
    : option B :=
  match l with
  | [] => Some b
  | x :: l' => b' ← body x b; for_each body l' b'
  end.

Section Redactor.
(** The Known-Value List the module is loaded with. *)
Variable known_names : list str.

(** Body of [for name in KNOWN_NAMES]. *)
Definition redact_name (session_id name : str) (w : work) : option work :=
  if str_in name (redacted_text w)
  then redact_value session_id (py "PERSON") (py "Known person name") name w
  else Some w.

(** Body of [for match in matches]. *)
Definition redact_match (session_id : str) (c : config)
    (original_value : str) (w : work) : option work :=
  if startswith original_value (py "[") && endswith original_value (py "]")
  then Some w
  else redact_value session_id (label c) (description c) original_value w.

(** Body of [for pii_type, config in PII_PATTERNS.items()].  The
    iterator of [re.finditer] walks the string [redacted_text] was
    bound to when the iterator was made. *)
Definition redact_pattern (session_id : str) (kc : str * config) (w : work)
    : option work :=
  let matches := finditer (pattern kc.2) (redacted_text w) in
  for_each (redact_match session_id kc.2) matches w.

(** [if session_id not in self.redaction_map: ...] *)
Definition init_session (self : PIIRedactor) (session_id : str)
    : PIIRedactor :=
  match redaction_map self !! session_id with
  | Some _ => self
  | None =>
      {| redaction_map := <[session_id := []]> (redaction_map self);
         token_counters := <[session_id := ∅]> (token_counters self) |}
  end.

(** [PIIRedactor.redact]: the object after the call and the returned
    pair; [None] when the call raises. *)
Definition redact (self : PIIRedactor) (text session_id : str)
    : option (PIIRedactor * (str * gmap str redaction)) :=
  match text with
  | [] => Some (self, (text, ∅))
  | _ :: _ =>
      let w0 := {| w_self := init_session self session_id;
                   redacted_text := text;
                   redactions := ∅ |} in
      w1 ← for_each (redact_name session_id) known_names w0;
      w2 ← for_each (redact_pattern session_id) PII_PATTERNS w1;
      Some (w_self w2, (redacted_text w2, redactions w2))
  end.
End Redactor.

(** [PIIRedactor.restore] *)
Definition restore (self : PIIRedactor) (text session_id : str) : str :=
  match text, redaction_map self !! session_id with
  | [], _ | _, None => text
  | _ :: _, Some session_map =>
      fold_left
        (fun restored_text tv => replace restored_text (bracketed tv.1) tv.2)
        session_map text
  end.

(** [PIIRedactor.get_redaction_stats] *)
Definition count_types (session_map : list (str * str)) : gmap str nat :=
  fold_left
    (fun by_type tv =>
       let pii_type := rsplit1_0 tv.1 in
       <[pii_type := (default 0%nat (by_type !! pii_type) + 1)%nat]> by_type)
    session_map ∅.

Definition get_redaction_stats (self : PIIRedactor) (session_id : str)
    : stats :=
  match redaction_map self !! session_id with
  | None => {| total_redactions := 0; by_type := ∅ |}
  | Some session_map =>
      {| total_redactions := length session_map;
         by_type := count_types session_map |}
  end.

(** [PIIRedactor.clear_session] *)
Definition clear_session (self : PIIRedactor) (session_id : str)
    : PIIRedactor :=
  {| redaction_map :=
       match redaction_map self !! session_id with
       | Some _ => delete session_id (redaction_map self)
       | None => redaction_map self
       end;
     token_counters :=
       match token_counters self !! session_id with
       | Some _ => delete session_id (token_counters self)
       | None => token_counters self
       end |}.

(** [PIIRedactor.export_redaction_map] *)
Definition export_redaction_map (self : PIIRedactor) (session_id : str)
    : export :=
  match redaction_map self !! session_id with
  | None => ExportEmpty
  | Some session_map =>
      Export session_id session_map (get_redaction_stats self session_id)
  end.

(** ** [pii_redactor_advanced.py] *)

(** What a call may raise. *)
Inductive error : Type :=
| AttributeError (attribute : str)
| KeyError (key : str).

Inductive outcome (A : Type) : Type :=
| Returns (a : A)
| Raises (e : error).
Arguments Returns {A} a.
Arguments Raises {A} e.

Section Advanced.
(** The [llm_guard] package is outside the repository: its vault, the
    risk score and the exceptions of its scanner are left open, and so
    is the scan itself, [Anonymize(vault, ...).scan(text)], which
    returns or raises and may write to the vault. *)
Variables Vault Risk Exn : Type.
Variable new_vault : Vault.
Variable scan : Vault -> str -> Vault * (Exn + (str * bool * Risk)).

(** The module-level flag set by the guarded import. *)
Variable LLM_GUARD_AVAILABLE : bool.

Variable known_names : list str.

(** The attributes of an [AdvancedPIIRedactor]; [__init__] sets
    [vault] on one branch and [fallback_redactor] on the other, the
    attribute that was not set does not exist. *)
Record AdvancedPIIRedactor := {
  use_llm_guard : bool;
  vault : option Vault;
  fallback_redactor : option PIIRedactor;
}.

(** The metadata of the statistical path. *)
Record guard_metadata := {
  method : str;
  is_valid : bool;
  risk_score : Risk;
  original_length : nat;
  redacted_length : nat;
  md_session_id : str;
  redactions_count : Z;
}.

Inductive metadata : Type :=
| PatternMetadata (redactions : gmap str redaction)
| GuardMetadata (m : guard_metadata).

(** [AdvancedPIIRedactor.__init__] *)
Definition advanced_init (use_llm_guard : bool) : AdvancedPIIRedactor :=
  if use_llm_guard && LLM_GUARD_AVAILABLE
  then {| use_llm_guard := true; vault := Some new_vault;
          fallback_redactor := None |}
  else {| use_llm_guard := false; vault := None;
          fallback_redactor := Some init |}.

(** [text.count('[')] *)
Definition count_open (s : str) : Z :=
  Z.of_nat (length (filter (fun c => chr_eqb c "[" = true) s)).

(** [self.fallback_redactor.redact(text, session_id)] *)
Definition fallback_redact (self : AdvancedPIIRedactor) (text session_id : str)
    : outcome (AdvancedPIIRedactor * (str * metadata)) :=
  match fallback_redactor self with
  | None => Raises (AttributeError (py "fallback_redactor"))
  | Some fb =>
      match redact known_names fb text session_id with
      | None => Raises (KeyError session_id)
      | Some (fb', (redacted, redactions)) =>
          Returns ({| use_llm_guard := use_llm_guard self;
                      vault := vault self;
                      fallback_redactor := Some fb' |},
                   (redacted, PatternMetadata redactions))
      end
  end.

(** [AdvancedPIIRedactor.redact].  Everything the [try] block raises
    is an [Exception] and enters the handler, which calls the fallback
    redactor. *)
Definition advanced_redact (self : AdvancedPIIRedactor)
    (text session_id : str)
    : outcome (AdvancedPIIRedactor * (str * metadata)) :=
  match text with
  | [] => Returns (self, (text, PatternMetadata ∅))
  | _ :: _ =>
      if use_llm_guard self then
        match vault self with
        | None => fallback_redact self text session_id
        | Some v =>
            match scan v text with
            | (v', inr (sanitized_text, valid, risk)) =>
                Returns
                  ({| use_llm_guard := use_llm_guard self;
                      vault := Some v';
                      fallback_redactor := fallback_redactor self |},
                   (sanitized_text,
                    GuardMetadata
                      {| method := py "llm_guard_bert_ner";
                         is_valid := valid;
                         risk_score := risk;
                         original_length := length text;
                         redacted_length := length sanitized_text;
                         md_session_id := session_id;
                         redactions_count :=
                           Z.max 0 (count_open text - count_open sanitized_text) |}))
            | (v', inl _) =>
                fallback_redact
                  {| use_llm_guard := use_llm_guard self;
                     vault := Some v';
                     fallback_redactor := fallback_redactor self |}
                  text session_id
            end
        end
      else fallback_redact self text session_id
  end.
End Advanced.

(** ** One session at a time

    Everything [redact] does happens inside one session.  The
    definitions below restate the token store and the loops of [redact]
    on the pair (token mapping, category counters) of that session; the
    lemmas [redact_value_embed] to [redact_session_view] show that the
    methods above compute exactly this on the object. *)

Abbreviation session := (list (str * str) * gmap str N)%type.

Definition session_view (self : PIIRedactor) (session_id : str)
    : option session :=
  m ← redaction_map self !! session_id;
  cs ← token_counters self !! session_id;
  Some (m, cs).

Definition put_session (self : PIIRedactor) (session_id : str) (s : session)
    : PIIRedactor :=
  {| redaction_map := <[session_id := s.1]> (redaction_map self);
     token_counters := <[session_id := s.2]> (token_counters self) |}.

(** [f"{pii_type}_{counter}"] *)
Definition token_of (pii_type : str) (counter : N) : str :=
  pii_type ++ py "_" ++ str_N counter.

Definition lookup_value (m : list (str * str)) (v : str) : option (str * str) :=
  find (fun tv => bool_decide (tv.2 = v)) m.

Definition tokenize (s : session) (pii_type v : str) : session * str :=
  match lookup_value s.1 v with
  | Some (token, _) => (s, token)
  | None =>
      let counter := default 0 (s.2 !! pii_type) + 1 in
      ((dict_set s.1 (token_of pii_type counter) v,
        <[pii_type := counter]> s.2),
       token_of pii_type counter)
  end.

Record swork := {
  s_session : session;
  s_text : str;
  s_redactions : gmap str redaction;
}.

Definition embed (self : PIIRedactor) (session_id : str) (w : swork) : work :=
  {| w_self := put_session self session_id (s_session w);
     redacted_text := s_text w;
     redactions := s_redactions w |}.

Definition value_step (ty desc v : str) (w : swork) : swork :=
  let st := tokenize (s_session w) ty v in
  {| s_session := st.1;
     s_text := replace (s_text w) v (bracketed st.2);
     s_redactions :=
       <[st.2 := {| type := ty; original := v; about := desc |}]>
         (s_redactions w) |}.

Definition name_step (w : swork) (name : str) : swork :=
  if str_in name (s_text w)
  then value_step (py "PERSON") (py "Known person name") name w
  else w.

Definition match_step (c : config) (w : swork) (v : str) : swork :=
  if startswith v (py "[") && endswith v (py "]") then w
  else value_step (label c) (description c) v w.

Definition pattern_step (w : swork) (kc : str * config) : swork :=
  fold_left (match_step kc.2) (finditer (pattern kc.2) (s_text w)) w.

Definition session_redact (names : list str) (s : session) (text : str)
    : swork :=
  fold_left pattern_step PII_PATTERNS
    (fold_left name_step names
       {| s_session := s; s_text := text; s_redactions := ∅ |}).

(** ** Invariant of the token store

    In every session the tokens of a category are numbered 1, 2, ... in
    the order they were minted, up to the category's counter. *)

Definition has_label (L : str) (token : str) : Prop := rsplit1_0 token = L.

Global Instance has_label_dec L token : Decision (has_label L token).
Proof. unfold has_label. apply _. Defined.

Definition tokens_of (L : str) (m : list (str * str)) : list str :=
  filter (has_label L) (dict_keys m).

Definition numbered (s : session) : Prop :=
  forall L,
    tokens_of L s.1 =
    map (fun i => token_of L (N.of_nat i))
      (seq 1 (N.to_nat (default 0 (s.2 !! L)))).

(** No two tokens of a session stand for the same value. *)
Definition session_ok (s : session) : Prop :=
  numbered s /\ NoDup (map snd s.1).

Definition wf (self : PIIRedactor) : Prop :=
  forall sid m, redaction_map self !! sid = Some m ->
    exists cs, token_counters self !! sid = Some cs /\ session_ok (m, cs).

(** The objects the operations of the class lead to. *)
Inductive reachable (names : list str) : PIIRedactor -> Prop :=
| reach_init : reachable names init
| reach_redact self text sid self' out :
    reachable names self ->
    redact names self text sid = Some (self', out) ->
    reachable names self'
| reach_clear self sid :
    reachable names self -> reachable names (clear_session self sid).

(** [_get_or_create_token] called for each (category, value) of a list,
    in one session. *)
Fixpoint tokenize_each (self : PIIRedactor) (session_id : str)
    (requests : list (str * str)) : option PIIRedactor :=
  match requests with
  | [] => Some self
  | (pii_type, v) :: requests' =>
      '(self', _) ← _get_or_create_token self session_id pii_type v;
      tokenize_each self' session_id requests'
  end.

(** Any number of [redact] calls, on any texts and sessions. *)
Inductive redacts (names : list str) : PIIRedactor -> PIIRedactor -> Prop :=
| redacts_refl self : redacts names self self
| redacts_step self text sid self' out self'' :
    redact names self text sid = Some (self', out) ->
    redacts names self' self'' ->
    redacts names self self''.

(** [redact] called on each text of a list, in one session. *)
Fixpoint redact_all (names : list str) (self : PIIRedactor) (texts : list str)
    (session_id : str) : option PIIRedactor :=
  match texts with
  | [] => Some self
  | text :: texts' =>
      '(self', _) ← redact names self text session_id;
      redact_all names self' texts' session_id
  end.

(** The tokens of a session, in the order of its mapping. *)
Definition session_tokens (self : PIIRedactor) (session_id : str) : list str :=
  dict_keys (default [] (redaction_map self !! session_id)).

(** ** Notions used in the statements *)

(** Substring containment, as a proposition. *)
Definition occurs (sub s : str) : Prop := exists a b, s = a ++ sub ++ b.

(** The number a numeral denotes. *)
Definition numeral_value (s : str) : N :=
  fold_left (fun a c => 10 * a + (code c - 48)) s 0.

(** The session a [redact] call starts from: the recorded one, or the
    empty one [init_session] makes. *)
Definition start_session (self : PIIRedactor) (sid : str) : session :=
  default ([], ∅) (session_view self sid).


(** An object with one session, used to instantiate the statements: the
    object [redact("Madhu", "s")] makes of a new one. *)
Definition sample_session : session :=
  ([(py "PERSON_1", py "Madhu")], {[py "PERSON" := 1]}).

Definition sample : PIIRedactor := put_session init (py "s") sample_session.

(** The text of the scenario, the Known-Value List with ["John"] put in
    at position [i] (at the end for an [i] beyond the list), and what the
    scenario is to return. *)
Definition scenario_text : str :=
  py "Contact John at john@example.com or 555-123-4567".

Definition names_with_john (i : nat) : list str :=
  take i KNOWN_NAMES ++ py "John" :: drop i KNOWN_NAMES.

Definition scenario_redactions : gmap str redaction :=
  <[py "PHONE_1" := {| type := py "PHONE"; original := py "555-123-4567";
                       about := py "Phone number" |}]>
  (<[py "EMAIL_1" := {| type := py "EMAIL"; original := py "john@example.com";
                        about := py "Email address" |}]>
   (<[py "PERSON_1" := {| type := py "PERSON"; original := py "John";
                          about := py "Known person name" |}]> ∅)).

Definition scenario_stats : stats :=
  {| total_redactions := 3;
     by_type := <[py "PERSON" := 1%nat]>
                  (<[py "EMAIL" := 1%nat]> (<[py "PHONE" := 1%nat]> ∅)) |}.

(** The metadata of a call agrees with the mapping of the session. *)
Definition md_consistent (w : swork) : Prop :=
  forall t i, s_redactions w !! t = Some i ->
    dict_get (s_session w).1 t = Some (original i).

(** The loops of [redact] are not to be unfolded by simplification. *)
Arguments redact : simpl never.
Arguments session_redact : simpl never.
Arguments pattern_step : simpl never.
Arguments value_step : simpl never.
Arguments tokenize : simpl never.
Arguments finditer : simpl never.
Arguments replace : simpl never.
Arguments restore : simpl never.
Arguments str_N : simpl never.
Arguments PII_PATTERNS : simpl never.
Arguments KNOWN_NAMES : simpl never.
Arguments scenario_text : simpl never.

(** What a [redact] call that started from the session [s0] keeps. *)
Definition call_ok (s0 : session) (w : swork) : Prop :=
  session_ok (s_session w) /\ md_consistent w /\
  s0.1 `prefix_of` (s_session w).1.


(** The metadata of a call that redacts ["Madhu"] in a new session. *)
Definition sample_redactions : gmap str redaction :=
  {[py "PERSON_1" :=
      {| type := py "PERSON"; original := py "Madhu";
         about := py "Known person name" |}]}.

(** ** Redacted texts

    [encodes m x y]: the text [x] is the text [y] with some of the values
    of the mapping [m] replaced by their bracketed tokens.  Outside the
    tokens [x] has no opening bracket. *)

Definition no_open (s : str) : Prop := "["%char ∉ s.

Definition no_bracket (s : str) : Prop := ("["%char ∉ s) /\ ("]"%char ∉ s).

Inductive encodes (m : list (str * str)) : str -> str -> Prop :=
| enc_nil : encodes m [] []
| enc_chr c x y :
    c <> "["%char -> encodes m x y -> encodes m (c :: x) (c :: y)
| enc_tok t v x y :
    dict_get m t = Some v -> no_bracket t -> no_open v ->
    encodes m x y -> encodes m (bracketed t ++ x) (v ++ y).

(** ** What a pattern can match

    [lang r w]: the word [w] is matched by [r] at some place of some
    subject (the word boundaries and the upper bounds of repetitions are
    left out, so that [lang] takes in every match). *)
Fixpoint lang (r : regex) (w : str) : Prop :=
  match r with
  | Cls p => exists c, w = [c] /\ p c = true
  | Bnd | Eps => w = []
  | Cat r1 r2 => exists w1 w2, w = w1 ++ w2 /\ lang r1 w1 /\ lang r2 w2
  | Alt r1 r2 => lang r1 w \/ lang r2 w
  | Rep r1 lo _ =>
      exists ws, w = concat ws /\ Forall (lang r1) ws /\ (lo <= length ws)%nat
  end.

Definition all_chars : list ascii := map ascii_of_nat (seq 0 256).

(** Every character of the class [p] is in the class [q]. *)
Definition cls_sub (p q : ascii -> bool) : bool :=
  forallb (fun c => implb (p c) (q c)) all_chars.

(** Every character [r] can match is in the class [q]. *)
Fixpoint chars_in (q : ascii -> bool) (r : regex) : bool :=
  match r with
  | Cls p => cls_sub p q
  | Bnd | Eps => true
  | Cat r1 r2 | Alt r1 r2 => chars_in q r1 && chars_in q r2
  | Rep r1 _ _ => chars_in q r1
  end.

(** A number of characters of the class [q] every match of [r] has. *)
Fixpoint min_count (q : ascii -> bool) (r : regex) : nat :=
  match r with
  | Cls p => if cls_sub p q then 1 else 0
  | Bnd | Eps => 0
  | Cat r1 r2 => min_count q r1 + min_count q r2
  | Alt r1 r2 => Nat.min (min_count q r1) (min_count q r2)
  | Rep r1 lo _ => lo * min_count q r1
  end.

Fixpoint count_chr (q : ascii -> bool) (s : str) : nat :=
  match s with
  | [] => 0
  | c :: s' => (if q c then 1 else 0) + count_chr q s'
  end.

Definition not_bracket (c : ascii) : bool :=
  negb (chr_eqb c "[") && negb (chr_eqb c "]").

(** The characters of the tokens: capital letters, digits, underscore. *)
Definition token_chr : ascii -> bool := upper ||| digit ||| one_of "_".

Definition non_token_chr (c : ascii) : bool := negb (token_chr c).

(** A value that cannot be found inside a token with fewer than ten
    digits: it has no bracket, and it has a character no token has or at
    least ten digits. *)
Definition admissible (v : str) : bool :=
  forallb not_bracket v &&
  ((1 <=? count_chr non_token_chr v)%nat || (10 <=? count_chr digit v)%nat).

Definition pattern_ok (r : regex) : bool :=
  chars_in not_bracket r &&
  ((1 <=? min_count non_token_chr r)%nat || (10 <=? min_count digit r)%nat).

(** The category labels [redact] asks tokens for. *)
Definition LABELS : list str :=
  py "PERSON" :: map (fun kc : str * config => label kc.2) PII_PATTERNS.

Definition label_ok (L : str) : bool :=
  forallb (upper ||| one_of "_") L.

Definition labelled (m : list (str * str)) : Prop :=
  Forall (fun t => rsplit1_0 t ∈ LABELS) (dict_keys m).

Definition wf_labels (self : PIIRedactor) : Prop :=
  forall sid m, redaction_map self !! sid = Some m -> labelled m.

(** Every counter of the session is below [B]. *)
Definition bounded (B : N) (cs : gmap str N) : Prop :=
  forall L c, cs !! L = Some c -> c < B.

Definition counters_below (B : N) (self : PIIRedactor) (sid : str) : Prop :=
  forall cs, token_counters self !! sid = Some cs -> bounded B cs.

(** What [redact] keeps while it works on the text [T]. *)
Definition roundtrip_inv (T : str) (w : swork) : Prop :=
  session_ok (s_session w) /\ labelled (s_session w).1 /\
  encodes (s_session w).1 (s_text w) T.

Definition labels_inv (w : swork) : Prop :=
  session_ok (s_session w) /\ labelled (s_session w).1.

(** The counters of the session a call works on are below 10^9. *)
Definition below (w : swork) : Prop := bounded 1000000000 (s_session w).2.


(** ** The other methods of [AdvancedPIIRedactor] *)

(** What [get_redaction_stats] and [export_redaction_map] return: the
    dictionary of the statistical path, or what the fallback redactor
    returns. *)
Inductive advanced_stats : Type :=
| GuardStats (method : str) (vault_size : nat) (session_id : str)
| PatternStats (s : stats).

Inductive advanced_export : Type :=
| GuardExport (method note session_id : str)
| PatternExport (e : export).

Arguments use_llm_guard {Vault} _.
Arguments vault {Vault} _.
Arguments fallback_redactor {Vault} _.

Section AdvancedOperations.
(** [len(self.vault)] is the vault's own. *)
Variables Vault Risk Exn : Type.
Variable new_vault : Vault.
Variable scan : Vault -> str -> Vault * (Exn + (str * bool * Risk)).
Variable vault_len : Vault -> nat.
Variable LLM_GUARD_AVAILABLE : bool.
Variable known_names : list str.

(** [AdvancedPIIRedactor.restore] *)
Definition advanced_restore (self : AdvancedPIIRedactor Vault)
    (text session_id : str) : outcome str :=
  if use_llm_guard self then Returns text
  else
    match fallback_redactor self with
    | None => Raises (AttributeError (py "fallback_redactor"))
    | Some fb => Returns (restore fb text session_id)
    end.

(** [AdvancedPIIRedactor.get_redaction_stats] *)
Definition advanced_get_redaction_stats (self : AdvancedPIIRedactor Vault)
    (session_id : str) : outcome advanced_stats :=
  if use_llm_guard self then
    match vault self with
    | None => Raises (AttributeError (py "vault"))
    | Some v =>
        Returns (GuardStats (py "llm_guard_bert_ner") (vault_len v) session_id)
    end
  else
    match fallback_redactor self with
    | None => Raises (AttributeError (py "fallback_redactor"))
    | Some fb => Returns (PatternStats (get_redaction_stats fb session_id))
    end.

(** [AdvancedPIIRedactor.export_redaction_map] *)
Definition advanced_export_redaction_map (self : AdvancedPIIRedactor Vault)
    (session_id : str) : outcome advanced_export :=
  if use_llm_guard self then
    Returns (GuardExport (py "llm_guard_bert_ner")
               (py "LLM Guard uses Vault for secure storage") session_id)
  else
    match fallback_redactor self with
    | None => Raises (AttributeError (py "fallback_redactor"))
    | Some fb => Returns (PatternExport (export_redaction_map fb session_id))
    end.

(** [AdvancedPIIRedactor.clear_session] *)
Definition advanced_clear_session (self : AdvancedPIIRedactor Vault)
    (session_id : str) : outcome (AdvancedPIIRedactor Vault) :=
  if negb (use_llm_guard self) then
    match fallback_redactor self with
    | None => Raises (AttributeError (py "fallback_redactor"))
    | Some fb =>
        Returns {| use_llm_guard := use_llm_guard self;
                   vault := vault self;
                   fallback_redactor := Some (clear_session fb session_id) |}
    end
  else Returns self.

(** The data [masking_function] walks: a string, a dictionary, a list,
    or anything else. *)
Variables Key Other : Type.

Inductive data : Type :=
| DStr (s : str)
| DDict (items : list (Key * data))
| DList (items : list data)
| DOther (o : Other).

(** [masking_function(data, **kwargs)]; of [kwargs] only the entry
    ['session_id'] is read, given here when it is present.  Every string
    is redacted by an object made for it. *)
Fixpoint masking_function (d : data) (session_id : option str)
    : outcome data :=
  match d with
  | DStr s =>
      match advanced_redact Vault Risk Exn scan known_names
              (advanced_init Vault new_vault LLM_GUARD_AVAILABLE true) s
              (default (py "default") session_id) with
      | Returns (_, (sanitized_data, _)) => Returns (DStr sanitized_data)
      | Raises e => Raises e
      end
  | DDict items =>
      match
        (fix each (l : list (Key * data)) : outcome (list (Key * data)) :=
           match l with
           | [] => Returns []
           | (k, v) :: l' =>
               match masking_function v session_id with
               | Raises e => Raises e
               | Returns v' =>
                   match each l' with
                   | Raises e => Raises e
                   | Returns r => Returns ((k, v') :: r)
                   end
               end
           end) items
      with
      | Raises e => Raises e
      | Returns r => Returns (DDict r)
      end
  | DList items =>
      match
        (fix each (l : list data) : outcome (list data) :=
           match l with
           | [] => Returns []
           | v :: l' =>
               match masking_function v session_id with
               | Raises e => Raises e
               | Returns v' =>
                   match each l' with
                   | Raises e => Raises e
                   | Returns r => Returns (v' :: r)
                   end
               end
           end) items
      with
      | Raises e => Raises e
      | Returns r => Returns (DList r)
      end
  | DOther o => Returns d
  end.

(** A function applied to every string of the data. *)
Fixpoint map_strings (f : str -> str) (d : data) : data :=
  match d with
  | DStr s => DStr (f s)
  | DDict items => DDict (map (fun kv => (kv.1, map_strings f kv.2)) items)
  | DList items => DList (map (map_strings f) items)
  | DOther o => d
  end.
End AdvancedOperations.

(** The text [redact] returns for [s] on a new object. *)
Definition redact_fresh (names : list str) (s : str) : str :=
  match redact names init s (py "default") with
  | Some (_, (redacted, _)) => redacted
  | None => s
  end.

(** ** Notions used in the further statements *)

(** The calls of the class, and what a call returns. *)
Inductive call : Type :=
| CallRedact (text session_id : str)
| CallRestore (text session_id : str)
| CallStats (session_id : str)
| CallExport (session_id : str)
| CallClear (session_id : str).

Inductive result : Type :=
| ResRedact (redacted : str) (redactions : gmap str redaction)
| ResText (text : str)
| ResStats (s : stats)
| ResExport (e : export)
| ResNone.

(** One call on a [PIIRedactor]. *)
Definition do_call (names : list str) (self : PIIRedactor) (c : call)
    : option (PIIRedactor * result) :=
  match c with
  | CallRedact text sid =>
      '(self', (r, md)) ← redact names self text sid;
      Some (self', ResRedact r md)
  | CallRestore text sid => Some (self, ResText (restore self text sid))
  | CallStats sid => Some (self, ResStats (get_redaction_stats self sid))
  | CallExport sid => Some (self, ResExport (export_redaction_map self sid))
  | CallClear sid => Some (clear_session self sid, ResNone)
  end.

(** The same call on an [AdvancedPIIRedactor]; [None] when it raises or
    returns a dictionary of the statistical path. *)
Definition do_advanced_call {Vault Risk Exn : Type}
    (scan : Vault -> str -> Vault * (Exn + (str * bool * Risk)))
    (vault_len : Vault -> nat) (names : list str)
    (self : AdvancedPIIRedactor Vault) (c : call)
    : option (AdvancedPIIRedactor Vault * result) :=
  match c with
  | CallRedact text sid =>
      match advanced_redact Vault Risk Exn scan names self text sid with
      | Returns (self', (r, PatternMetadata _ md)) => Some (self', ResRedact r md)
      | _ => None
      end
  | CallRestore text sid =>
      match advanced_restore Vault self text sid with
      | Returns t => Some (self, ResText t)
      | Raises _ => None
      end
  | CallStats sid =>
      match advanced_get_redaction_stats Vault vault_len self sid with
      | Returns (PatternStats s) => Some (self, ResStats s)
      | _ => None
      end
  | CallExport sid =>
      match advanced_export_redaction_map Vault self sid with
      | Returns (PatternExport e) => Some (self, ResExport e)
      | _ => None
      end
  | CallClear sid =>
      match advanced_clear_session Vault self sid with
      | Returns self' => Some (self', ResNone)
      | Raises _ => None
      end
  end.

(** A list of calls, with the results in order. *)
Fixpoint do_calls {S} (step : S -> call -> option (S * result)) (self : S)
    (cs : list call) : option (S * list result) :=
  match cs with
  | [] => Some (self, [])
  | c :: cs' =>
      '(self', r) ← step self c;
      '(self'', rs) ← do_calls step self' cs';
      Some (self'', r :: rs)
  end.

(** Every value of the mapping is admissible. *)
Definition values_ok (m : list (str * str)) : Prop :=
  Forall (fun tv : str * str => admissible tv.2 = true) m.

Definition wf_values (self : PIIRedactor) : Prop :=
  forall sid m, redaction_map self !! sid = Some m -> values_ok m.

(** The values of the metadata are admissible, are gone from the working
    text, and were in the text [T]. *)
Definition md_admissible (w : swork) : Prop :=
  forall t i, s_redactions w !! t = Some i -> admissible (original i) = true.

Definition md_absent (w : swork) : Prop :=
  forall t i, s_redactions w !! t = Some i -> ~ occurs (original i) (s_text w).

Definition md_within (T : str) (w : swork) : Prop :=
  forall t i, s_redactions w !! t = Some i -> occurs (original i) T.

(** A value [redact] can come to tokenize: a name of the Known-Value
    List or a word one of the patterns can match. *)
Definition detected (names : list str) (v : str) : Prop :=
  v ∈ names \/ exists kc, kc ∈ PII_PATTERNS /\ lang (pattern kc.2) v.

Definition wf_detected (names : list str) (self : PIIRedactor) : Prop :=
  forall sid m, redaction_map self !! sid = Some m ->
    Forall (fun tv : str * str => detected names tv.2) m.

Definition detected_inv (names : list str) (w : swork) : Prop :=
  session_ok (s_session w) /\
  Forall (fun tv : str * str => detected names tv.2) (s_session w).1.


Definition absent_inv (w : swork) : Prop :=
  labels_inv w /\ md_admissible w /\ md_absent w.

Definition within_inv (T : str) (w : swork) : Prop :=
  roundtrip_inv T w /\ md_within T w.


(** An advanced redactor that works through the fallback redactor. *)
Definition with_fallback (Vault : Type) (v : option Vault) (fb : PIIRedactor)
    : AdvancedPIIRedactor Vault :=
  {| use_llm_guard := false; vault := v; fallback_redactor := Some fb |}.

(** An object that works through the scanner: what [__init__] makes when
    the scanner is asked for and installed. *)
Definition guard_object {Vault : Type} (self : AdvancedPIIRedactor Vault)
    : Prop :=
  use_llm_guard self = true /\ is_Some (vault self) /\
  fallback_redactor self = None.

(** The text the scanner returns for [s] on a new vault; the empty text
    is not scanned. *)
Definition scanned {Vault Risk Exn : Type} (new_vault : Vault)
    (scan : Vault -> str -> Vault * (Exn + (str * bool * Risk)))
    (s : str) : str :=
  match s with
  | [] => []
  | _ :: _ =>
      match scan new_vault s with
      | (_, inr (sanitized_text, _, _)) => sanitized_text
      | (_, inl _) => s
      end
  end.

(** * Properties *)

(** ** Characters and strings *)

Lemma chr_eqb_eq a b : chr_eqb a b = true <-> a = b.
Proof. unfold chr_eqb. apply Ascii.eqb_eq. Qed.

Lemma chr_eqb_refl a : chr_eqb a a = true.
Proof. by apply chr_eqb_eq. Qed.

Lemma chr_eqb_neq a b : chr_eqb a b = false <-> a <> b.
Proof. unfold chr_eqb. apply Ascii.eqb_neq. Qed.

Lemma startswith_app (s p : str) : startswith (p ++ s) p = true.
Proof. induction p as [|a p IH]; simpl; [done|]. by rewrite chr_eqb_refl. Qed.

Lemma startswith_inv (s p : str) :
  startswith s p = true -> exists s', s = p ++ s'.
Proof.
  revert s. induction p as [|a p IH]; intros s H; simpl in *.
  - by exists s.
  - destruct s as [|b s]; [done|].
    apply andb_true_iff in H as [Hab H]. apply chr_eqb_eq in Hab as ->.
    destruct (IH _ H) as [s' ->]. by exists s'.
Qed.

Lemma startswith_iff (s p : str) :
  startswith s p = true <-> exists s', s = p ++ s'.
Proof.
  split; [apply startswith_inv|]. intros [s' ->]. apply startswith_app.
Qed.

Lemma str_in_occurs (sub s : str) : str_in sub s = true <-> occurs sub s.
Proof.
  induction s as [|c s IH]; simpl.
  - rewrite orb_false_r, startswith_iff. split.
    + intros [s' H]. exists [], s'. done.
    + intros (a & b & H). destruct a; simpl in *.
      * by exists b.
      * done.
  - rewrite orb_true_iff, startswith_iff, IH. split.
    + intros [[s' H]|(a & b & H)].
      * exists [], s'. done.
      * exists (c :: a), b. by rewrite H.
    + intros (a & b & H). destruct a as [|x a]; simpl in *.
      * left. by exists b.
      * right. injection H as -> ->. by exists a, b.
Qed.

Lemma not_occurs_cons (sub : str) c s :
  ~ occurs sub (c :: s) -> ~ occurs sub s.
Proof. intros H (a & b & ->). apply H. by exists (c :: a), b. Qed.

(** ** Decimal numerals *)

Lemma code_digit_chr d : d < 10 -> code (digit_chr d) = 48 + d.
Proof.
  intros H. unfold code, digit_chr. apply N_ascii_embedding. lia.
Qed.

Lemma digit_digit_chr d : d < 10 -> digit (digit_chr d) = true.
Proof.
  intros H. unfold digit, in_range. rewrite code_digit_chr by done.
  change (code "0") with 48. change (code "9") with 57.
  apply andb_true_iff. split; apply N.leb_le; lia.
Qed.

Lemma str_N_go_app fuel n acc :
  str_N_go fuel n acc = str_N_go fuel n [] ++ acc.
Proof.
  revert n acc. induction fuel as [|fuel IH]; intros n acc; simpl; [done|].
  destruct (n <? 10); [done|].
  rewrite IH, (IH _ [_]), <- app_assoc. done.
Qed.

Lemma str_N_go_digits fuel n :
  Forall (fun c => digit c = true) (str_N_go fuel n []).
Proof.
  revert n. induction fuel as [|fuel IH]; intros n; simpl; [constructor|].
  destruct (n <? 10) eqn:Hn.
  - apply N.ltb_lt in Hn. constructor; [by apply digit_digit_chr|constructor].
  - rewrite str_N_go_app. apply Forall_app. split; [apply IH|].
    constructor; [|constructor]. apply digit_digit_chr.
    apply N.mod_lt. lia.
Qed.

Lemma str_N_digits n : Forall (fun c => digit c = true) (str_N n).
Proof. apply str_N_go_digits. Qed.

Lemma numeral_value_snoc s c :
  numeral_value (s ++ [c]) = 10 * numeral_value s + (code c - 48).
Proof. unfold numeral_value. by rewrite fold_left_app. Qed.

Lemma str_N_go_value fuel n :
  n < 10 ^ N.of_nat fuel -> numeral_value (str_N_go fuel n []) = n.
Proof.
  revert n. induction fuel as [|fuel IH]; intros n Hn.
  - simpl in *. change (10 ^ 0) with 1 in Hn. assert (n = 0) as -> by lia. done.
  - cbn [str_N_go]. destruct (n <? 10) eqn:H10.
    + apply N.ltb_lt in H10. unfold numeral_value. simpl.
      rewrite code_digit_chr by done. lia.
    + apply N.ltb_ge in H10. rewrite str_N_go_app, numeral_value_snoc.
      rewrite code_digit_chr by (apply N.mod_lt; lia).
      rewrite IH.
      * rewrite (N.add_comm 48), N.add_sub. symmetry. apply N.div_mod'.
      * rewrite Nat2N.inj_succ, N.pow_succ_r' in Hn.
        apply N.Div0.div_lt_upper_bound; lia.
Qed.

Lemma str_N_fuel n : n < 10 ^ N.of_nat (S (N.to_nat (N.log2 n))).
Proof.
  rewrite Nat2N.inj_succ, N2Nat.id.
  destruct (N.eq_dec n 0) as [->|Hn]; [done|].
  pose proof (N.log2_spec n) as [_ H]; [lia|].
  eapply N.lt_le_trans; [apply H|].
  apply N.pow_le_mono_l. lia.
Qed.

Lemma str_N_value n : numeral_value (str_N n) = n.
Proof. apply str_N_go_value, str_N_fuel. Qed.

Lemma str_N_inj a b : str_N a = str_N b -> a = b.
Proof. intros H. rewrite <- (str_N_value a), <- (str_N_value b). by rewrite H. Qed.

Lemma str_N_go_length fuel n k :
  n < 10 ^ N.of_nat k -> (1 <= k)%nat ->
  (length (str_N_go fuel n []) <= k)%nat.
Proof.
  revert n k. induction fuel as [|fuel IH]; intros n k Hn Hk; simpl; [lia|].
  destruct (n <? 10) eqn:H10; simpl; [lia|].
  apply N.ltb_ge in H10. rewrite str_N_go_app, length_app. simpl.
  destruct k as [|[|k]]; [lia| |].
  - change (10 ^ N.of_nat 1) with 10 in Hn. lia.
  - assert (length (str_N_go fuel (n / 10) []) <= S k)%nat; [|lia].
    apply IH; [|lia].
    rewrite Nat2N.inj_succ, N.pow_succ_r' in Hn.
    apply N.Div0.div_lt_upper_bound; lia.
Qed.

Lemma str_N_length n k :
  n < 10 ^ N.of_nat k -> (1 <= k)%nat -> (length (str_N n) <= k)%nat.
Proof. apply str_N_go_length. Qed.

Lemma str_N_nonempty n : str_N n <> [].
Proof.
  unfold str_N. simpl. destruct (n <? 10); [done|].
  rewrite str_N_go_app. by destruct (str_N_go _ _ []).
Qed.

(** ** Tokens *)

Lemma digit_not_underscore c : digit c = true -> c <> "_"%char.
Proof. intros H ->. done. Qed.

Lemma rsplit_head_none (d : str) :
  Forall (fun c => c <> "_"%char) d -> rsplit_head d = None.
Proof.
  induction 1 as [|c d Hc _ IH]; simpl; [done|].
  rewrite IH. by apply chr_eqb_neq in Hc as ->.
Qed.

Lemma rsplit_head_app (a d : str) :
  Forall (fun c => c <> "_"%char) d ->
  rsplit_head (a ++ "_"%char :: d) = Some a.
Proof.
  intros Hd. induction a as [|c a IH]; simpl.
  - by rewrite rsplit_head_none.
  - by rewrite IH.
Qed.

Lemma str_N_no_underscore n : Forall (fun c => c <> "_"%char) (str_N n).
Proof.
  eapply Forall_impl; [apply str_N_digits|]. apply digit_not_underscore.
Qed.

Lemma rsplit_token_of L n : rsplit1_0 (token_of L n) = L.
Proof.
  unfold rsplit1_0, token_of. simpl.
  by rewrite rsplit_head_app by apply str_N_no_underscore.
Qed.

Lemma token_of_inj L n L' n' :
  token_of L n = token_of L' n' -> L = L' /\ n = n'.
Proof.
  intros H. assert (L = L') as <-.
  { by rewrite <- (rsplit_token_of L n), H, rsplit_token_of. }
  split; [done|]. unfold token_of in H.
  apply app_inv_head in H. simpl in H. injection H as H. by apply str_N_inj.
Qed.

(** ** Ordered dictionaries *)

Section DictFacts.
Context {V : Type}.
Implicit Types (d : list (str * V)) (k : str) (v : V).

Lemma dict_get_None d k : dict_get d k = None <-> k ∉ dict_keys d.
Proof.
  induction d as [|[k' v'] d IH]; simpl.
  - split; [intros _; apply not_elem_of_nil|done].
  - rewrite not_elem_of_cons. destruct (decide (k' = k)) as [->|Hne].
    + split; [done|]. by intros [? _].
    + rewrite IH. split; [by intros ?; split|by intros [_ ?]].
Qed.

Lemma dict_get_Some_elem d k v : dict_get d k = Some v -> (k, v) ∈ d.
Proof.
  induction d as [|[k' v'] d IH]; simpl; [done|].
  destruct (decide (k' = k)) as [->|Hne].
  - intros [= ->]. apply list_elem_of_here.
  - intros H. apply list_elem_of_further. by apply IH.
Qed.

Lemma dict_get_elem d k v :
  NoDup (dict_keys d) -> (k, v) ∈ d -> dict_get d k = Some v.
Proof.
  induction d as [|[k' v'] d IH]; simpl; intros Hnd Hin.
  - by apply elem_of_nil in Hin.
  - apply NoDup_cons in Hnd as [Hk' Hnd].
    apply elem_of_cons in Hin as [[= -> ->]|Hin].
    + by rewrite decide_True.
    + rewrite decide_False; [by apply IH|].
      intros ->. apply Hk'. apply list_elem_of_fmap. by exists (k, v).
Qed.

Lemma dict_keys_set_new d k v :
  k ∉ dict_keys d -> dict_keys (dict_set d k v) = dict_keys d ++ [k].
Proof.
  induction d as [|[k' v'] d IH]; simpl; [done|].
  rewrite not_elem_of_cons. intros [Hne Hk].
  rewrite decide_False by done. simpl. by rewrite IH.
Qed.

Lemma dict_set_new d k v : k ∉ dict_keys d -> dict_set d k v = d ++ [(k, v)].
Proof.
  induction d as [|[k' v'] d IH]; simpl; [done|].
  rewrite not_elem_of_cons. intros [Hne Hk].
  rewrite decide_False by done. by rewrite IH.
Qed.

Lemma dict_get_set d k v k' :
  dict_get (dict_set d k v) k' =
  if decide (k = k') then Some v else dict_get d k'.
Proof.
  induction d as [|[k0 v0] d IH]; simpl.
  - destruct (decide (k = k')); done.
  - destruct (decide (k0 = k)) as [->|Hne]; simpl.
    + destruct (decide (k = k')); done.
    + destruct (decide (k0 = k')) as [->|Hne'].
      * by rewrite decide_False by done.
      * apply IH.
Qed.
End DictFacts.

(** ** The reverse lookup *)

Lemma lookup_value_Some (m : list (str * str)) v t v' :
  lookup_value m v = Some (t, v') -> v' = v /\ (t, v) ∈ m.
Proof.
  unfold lookup_value. intros H. apply find_some in H as [Hin Hv].
  apply bool_decide_eq_true in Hv. simpl in Hv. subst v'.
  split; [done|]. by apply list_elem_of_In.
Qed.

Lemma lookup_value_None (m : list (str * str)) v :
  lookup_value m v = None <-> forall t, (t, v) ∉ m.
Proof.
  unfold lookup_value. split.
  - intros H t Hin. apply list_elem_of_In in Hin.
    pose proof (find_none _ _ H _ Hin) as Hf. simpl in Hf.
    by apply bool_decide_eq_false in Hf.
  - intros H. destruct (find _ m) as [[t v']|] eqn:Hf; [|done].
    apply find_some in Hf as [Hin Hv]. apply bool_decide_eq_true in Hv.
    simpl in Hv. subst v'. exfalso. apply (H t). by apply list_elem_of_In.
Qed.

Lemma lookup_value_app_new (m : list (str * str)) t v :
  lookup_value m v = None -> lookup_value (m ++ [(t, v)]) v = Some (t, v).
Proof.
  unfold lookup_value. induction m as [|[t' v'] m IH]; simpl; intros H.
  - by rewrite bool_decide_eq_true_2.
  - destruct (bool_decide (v' = v)); [done|]. by apply IH.
Qed.

(** ** The numbering invariant *)

Lemma tokens_of_app_new L (m : list (str * str)) t v :
  tokens_of L (m ++ [(t, v)]) =
  tokens_of L m ++ (if decide (has_label L t) then [t] else []).
Proof.
  unfold tokens_of, dict_keys. rewrite map_app, filter_app. simpl.
  rewrite filter_cons. by destruct (decide (has_label L t)).
Qed.

Lemma numbered_token_elem (s : session) t :
  numbered s -> t ∈ dict_keys s.1 ->
  exists i, t = token_of (rsplit1_0 t) (N.of_nat i) /\
            (1 <= i)%nat /\ N.of_nat i <= default 0 (s.2 !! rsplit1_0 t).
Proof.
  intros Hn Ht. remember (rsplit1_0 t) as L eqn:HL.
  assert (t ∈ tokens_of L s.1) as Hin.
  { unfold tokens_of. by apply list_elem_of_filter. }
  rewrite Hn in Hin. apply list_elem_of_fmap in Hin as (i & Hti & Hi).
  apply elem_of_seq in Hi. exists i. split; [done|]. lia.
Qed.

Lemma numbered_fresh (s : session) L :
  numbered s -> token_of L (default 0 (s.2 !! L) + 1) ∉ dict_keys s.1.
Proof.
  intros Hn Hin. destruct (numbered_token_elem _ _ Hn Hin) as (i & Ht & _ & Hi).
  rewrite rsplit_token_of in Ht, Hi. apply token_of_inj in Ht as [_ Ht]. lia.
Qed.

Lemma numbered_NoDup (s : session) : numbered s -> NoDup (dict_keys s.1).
Proof.
  intros Hn. apply NoDup_alt. intros i j t Hi Hj.
  assert (forall L, NoDup (tokens_of L s.1)) as Hnd.
  { intros L. rewrite Hn. apply NoDup_fmap_2; [|apply NoDup_seq].
    intros a b Hab. apply token_of_inj in Hab as [_ Hab]. lia. }
  revert i j Hi Hj. generalize (Hnd (rsplit1_0 t)). unfold tokens_of.
  induction (dict_keys s.1) as [|k ks IH]; intros Hf i j Hi Hj; [done|].
  rewrite filter_cons in Hf. destruct (decide (has_label (rsplit1_0 t) k)) as [Hk|Hk].
  - apply NoDup_cons in Hf as [Hk' Hf].
    destruct i as [|i], j as [|j]; simpl in *; [done| | |f_equal; by apply IH].
    + injection Hi as ->. exfalso. apply Hk'. apply list_elem_of_filter.
      split; [done|]. by eapply list_elem_of_lookup_2.
    + injection Hj as ->. exfalso. apply Hk'. apply list_elem_of_filter.
      split; [done|]. by eapply list_elem_of_lookup_2.
  - destruct i as [|i], j as [|j]; simpl in *;
      [done| | |f_equal; by apply IH].
    + injection Hi as ->. by destruct Hk.
    + injection Hj as ->. by destruct Hk.
Qed.

Lemma numbered_empty : numbered ([], ∅).
Proof. intros L. done. Qed.

Lemma tokenize_found (s : session) ty v t v' :
  lookup_value s.1 v = Some (t, v') -> tokenize s ty v = (s, t).
Proof. unfold tokenize. by intros ->. Qed.

Lemma tokenize_new (s : session) ty v :
  lookup_value s.1 v = None ->
  tokenize s ty v =
  ((dict_set s.1 (token_of ty (default 0 (s.2 !! ty) + 1)) v,
    <[ty := default 0 (s.2 !! ty) + 1]> s.2),
   token_of ty (default 0 (s.2 !! ty) + 1)).
Proof. unfold tokenize. by intros ->. Qed.

Lemma tokenize_numbered (s : session) ty v :
  numbered s -> numbered (tokenize s ty v).1.
Proof.
  intros Hn. unfold tokenize.
  destruct (lookup_value s.1 v) as [[t v']|] eqn:Hl; [done|].
  simpl. intros L. simpl.
  rewrite dict_set_new by by apply numbered_fresh.
  rewrite tokens_of_app_new, Hn.
  destruct (decide (has_label L _)) as [HL|HL]; unfold has_label in HL;
    rewrite rsplit_token_of in HL.
  - subst L. rewrite lookup_insert_eq. simpl.
    set (c := default 0 (s.2 !! ty)).
    replace (N.to_nat (c + 1)) with (N.to_nat c + 1)%nat by lia.
    rewrite seq_app, map_app. simpl. do 3 f_equal. lia.
  - rewrite lookup_insert_ne by done. by rewrite app_nil_r.
Qed.

Lemma session_ok_empty : session_ok ([], ∅).
Proof. split; [apply numbered_empty|constructor]. Qed.

Lemma tokenize_grows (s : session) ty v :
  numbered s ->
  (tokenize s ty v).1.1 = s.1 \/
  (lookup_value s.1 v = None /\
   ((tokenize s ty v).2 ∉ dict_keys s.1) /\
   (tokenize s ty v).1.1 = s.1 ++ [((tokenize s ty v).2, v)]).
Proof.
  intros Hn. unfold tokenize.
  destruct (lookup_value s.1 v) as [[t v']|] eqn:Hl; [by left|].
  right. simpl. pose proof (numbered_fresh _ ty Hn) as Hf.
  split; [done|]. split; [done|]. by apply dict_set_new.
Qed.

Lemma tokenize_ok (s : session) ty v :
  session_ok s -> session_ok (tokenize s ty v).1.
Proof.
  intros [Hn Hv]. split; [by apply tokenize_numbered|].
  destruct (tokenize_grows s ty v Hn) as [->|(Hl & _ & ->)]; [done|].
  rewrite map_app. simpl. apply NoDup_app. split; [done|].
  split; [|apply NoDup_singleton].
  intros x Hx ->%list_elem_of_singleton.
  apply list_elem_of_fmap in Hx as ([t v'] & Hv' & Hin). simpl in Hv'. subst v'.
  rewrite lookup_value_None in Hl. by apply (Hl t).
Qed.

(** ** The methods, seen from one session *)

Lemma fold_left_inv {A B} (P : B -> Prop) (f : B -> A -> B) l b :
  P b -> (forall b x, P b -> x ∈ l -> P (f b x)) -> P (fold_left f l b).
Proof.
  revert b. induction l as [|x l IH]; intros b Hb Hf; simpl; [done|].
  apply IH.
  - apply Hf; [done|]. apply list_elem_of_here.
  - intros b' y Hb' Hy. apply Hf; [done|]. by apply list_elem_of_further.
Qed.

Lemma Some_pair_inv {A B} (a a' : A) (b b' : B) :
  Some (a, b) = Some (a', b') -> a = a' /\ b = b'.
Proof. intros H. by injection H. Qed.

Lemma redactor_eq (a b : PIIRedactor) :
  redaction_map a = redaction_map b -> token_counters a = token_counters b ->
  a = b.
Proof. destruct a, b; simpl; by intros -> ->. Qed.

Lemma session_view_Some self sid s :
  session_view self sid = Some s <->
  redaction_map self !! sid = Some s.1 /\ token_counters self !! sid = Some s.2.
Proof.
  unfold session_view. destruct s as [m cs]. simpl.
  destruct (redaction_map self !! sid) as [m'|]; simpl;
    [|by split; [|intros []]].
  destruct (token_counters self !! sid) as [cs'|]; simpl;
    [|by split; [|intros []]].
  split; [by intros [= -> ->]|by intros [[= ->] [= ->]]].
Qed.

Lemma session_view_put self sid s :
  session_view (put_session self sid s) sid = Some s.
Proof.
  apply session_view_Some. simpl. by rewrite !lookup_insert_eq.
Qed.

Lemma session_view_put_ne self sid sid' s :
  sid <> sid' ->
  session_view (put_session self sid s) sid' = session_view self sid'.
Proof.
  intros Hne. unfold session_view. simpl. by rewrite !lookup_insert_ne.
Qed.

Lemma put_session_id self sid s :
  session_view self sid = Some s -> put_session self sid s = self.
Proof.
  intros [Hm Hc]%session_view_Some. apply redactor_eq; simpl;
    by apply insert_id.
Qed.

Lemma put_session_put self sid s s' :
  put_session (put_session self sid s) sid s' = put_session self sid s'.
Proof. apply redactor_eq; simpl; apply insert_insert_eq. Qed.

Lemma get_or_create_token_view self sid ty v s :
  session_view self sid = Some s ->
  _get_or_create_token self sid ty v =
  Some (put_session self sid (tokenize s ty v).1, (tokenize s ty v).2).
Proof.
  intros Hs. pose proof Hs as [Hm Hc]%session_view_Some.
  unfold _get_or_create_token, tokenize, lookup_value.
  rewrite Hm. simpl.
  destruct (find _ s.1) as [[t v']|]; simpl.
  - by rewrite put_session_id.
  - rewrite Hc. simpl. done.
Qed.

Lemma redact_value_embed self sid ty desc v w :
  redact_value sid ty desc v (embed self sid w) =
  Some (embed self sid (value_step ty desc v w)).
Proof.
  unfold redact_value, embed. simpl.
  rewrite (get_or_create_token_view _ _ _ _ _ (session_view_put _ _ _)).
  simpl. by rewrite put_session_put.
Qed.

Lemma for_each_embed {A} self sid (body : A -> work -> option work)
    (step : swork -> A -> swork) l w :
  (forall x w, body x (embed self sid w) = Some (embed self sid (step w x))) ->
  for_each body l (embed self sid w) =
  Some (embed self sid (fold_left step l w)).
Proof.
  intros H. revert w. induction l as [|x l IH]; intros w; simpl; [done|].
  rewrite H. simpl. apply IH.
Qed.

Lemma redact_name_embed self sid name w :
  redact_name sid name (embed self sid w) =
  Some (embed self sid (name_step w name)).
Proof.
  unfold redact_name, name_step. simpl.
  destruct (str_in name (s_text w)); [apply redact_value_embed|done].
Qed.

Lemma redact_match_embed self sid c v w :
  redact_match sid c v (embed self sid w) =
  Some (embed self sid (match_step c w v)).
Proof.
  unfold redact_match, match_step.
  destruct (_ && _); [done|apply redact_value_embed].
Qed.

Lemma redact_pattern_embed self sid kc w :
  redact_pattern sid kc (embed self sid w) =
  Some (embed self sid (pattern_step w kc)).
Proof.
  unfold redact_pattern, pattern_step. simpl.
  apply for_each_embed. intros v w'. apply redact_match_embed.
Qed.

Lemma put_session_init_session self sid s :
  put_session (init_session self sid) sid s = put_session self sid s.
Proof.
  unfold init_session. destruct (redaction_map self !! sid); [done|].
  apply redactor_eq; simpl; apply insert_insert_eq.
Qed.

(** [redact] on a non-empty text, when the session the call starts from
    is [s]. *)
Lemma redact_session_view names self c text sid s :
  session_view (init_session self sid) sid = Some s ->
  redact names self (c :: text) sid =
  let w := session_redact names s (c :: text) in
  Some (put_session self sid (s_session w), (s_text w, s_redactions w)).
Proof.
  intros Hs. unfold redact, session_redact. cbv zeta.
  set (w0 := {| s_session := s; s_text := c :: text; s_redactions := ∅ |}).
  replace {| w_self := init_session self sid; redacted_text := c :: text;
             redactions := ∅ |}
    with (embed (init_session self sid) sid w0).
  2: { unfold embed, w0. simpl. by rewrite put_session_id. }
  rewrite (for_each_embed (init_session self sid) sid (redact_name sid)
             name_step names w0 (redact_name_embed _ _)).
  cbn [mbind option_bind].
  rewrite (for_each_embed (init_session self sid) sid (redact_pattern sid)
             pattern_step PII_PATTERNS _ (redact_pattern_embed _ _)).
  cbn [mbind option_bind embed w_self redacted_text redactions].
  by rewrite put_session_init_session.
Qed.

Lemma wf_session_view self sid m :
  wf self -> redaction_map self !! sid = Some m ->
  exists cs, session_view self sid = Some (m, cs) /\ session_ok (m, cs).
Proof.
  intros Hwf Hm. destruct (Hwf _ _ Hm) as (cs & Hc & Hn).
  exists cs. split; [|done]. by apply session_view_Some.
Qed.

Lemma wf_init_session_view self sid :
  wf self ->
  session_view (init_session self sid) sid = Some (start_session self sid).
Proof.
  intros Hwf. unfold init_session, start_session.
  destruct (redaction_map self !! sid) as [m|] eqn:Hm.
  - destruct (wf_session_view _ _ _ Hwf Hm) as (cs & -> & _). done.
  - unfold session_view at 2. rewrite Hm. simpl.
    apply session_view_Some. simpl. by rewrite !lookup_insert_eq.
Qed.

Lemma wf_start_session_ok self sid :
  wf self -> session_ok (start_session self sid).
Proof.
  intros Hwf. unfold start_session.
  destruct (session_view self sid) as [[m cs]|] eqn:Hs; simpl.
  - apply session_view_Some in Hs as [Hm Hc]. simpl in *.
    destruct (Hwf _ _ Hm) as (cs' & Hc' & Hn).
    rewrite Hc in Hc'. by injection Hc' as <-.
  - apply session_ok_empty.
Qed.

Lemma redact_nonempty_view names self text sid s :
  text <> [] ->
  session_view (init_session self sid) sid = Some s ->
  redact names self text sid =
  Some (put_session self sid (s_session (session_redact names s text)),
        (s_text (session_redact names s text),
         s_redactions (session_redact names s text))).
Proof. destruct text; [done|]. intros _. apply redact_session_view. Qed.

(** [redact] never raises on a well-formed object. *)
Lemma redact_wf_view names self text sid :
  wf self ->
  redact names self text sid =
  match text with
  | [] => Some (self, (text, ∅))
  | _ :: _ =>
      let w := session_redact names (start_session self sid) text in
      Some (put_session self sid (s_session w), (s_text w, s_redactions w))
  end.
Proof.
  intros Hwf. destruct text as [|c text]; [done|].
  apply redact_session_view. by apply wf_init_session_view.
Qed.

(** ** The invariant holds on every reachable object *)

Lemma wf_init : wf init.
Proof. intros sid m H. simpl in H. by rewrite lookup_empty in H. Qed.

Lemma wf_put_session self sid s :
  wf self -> session_ok s -> wf (put_session self sid s).
Proof.
  intros Hwf Hn sid' m. simpl. destruct (decide (sid = sid')) as [<-|Hne].
  - rewrite !lookup_insert_eq. intros [= <-]. exists s.2. by destruct s.
  - rewrite !lookup_insert_ne by done. apply Hwf.
Qed.

Lemma value_step_ok ty desc v w :
  session_ok (s_session w) -> session_ok (s_session (value_step ty desc v w)).
Proof. intros H. simpl. by apply tokenize_ok. Qed.

Lemma name_step_ok w name :
  session_ok (s_session w) -> session_ok (s_session (name_step w name)).
Proof.
  unfold name_step. destruct (str_in _ _); [apply value_step_ok|done].
Qed.

Lemma match_step_ok c w v :
  session_ok (s_session w) -> session_ok (s_session (match_step c w v)).
Proof.
  unfold match_step. destruct (_ && _); [done|apply value_step_ok].
Qed.

Lemma pattern_step_ok w kc :
  session_ok (s_session w) -> session_ok (s_session (pattern_step w kc)).
Proof.
  intros H. unfold pattern_step.
  apply (fold_left_inv (fun w => session_ok (s_session w))); [done|].
  intros. by apply match_step_ok.
Qed.

Lemma session_redact_ok names s text :
  session_ok s -> session_ok (s_session (session_redact names s text)).
Proof.
  intros H. unfold session_redact.
  apply (fold_left_inv (fun w => session_ok (s_session w))).
  - apply (fold_left_inv (fun w => session_ok (s_session w))); [done|].
    intros. by apply name_step_ok.
  - intros. by apply pattern_step_ok.
Qed.

Lemma redact_wf names self text sid self' out :
  wf self -> redact names self text sid = Some (self', out) -> wf self'.
Proof.
  intros Hwf. rewrite redact_wf_view by done.
  destruct text as [|c text]; [by intros [= <- _]|].
  cbv zeta. pose proof (session_redact_ok names _ (c :: text)
                          (wf_start_session_ok self sid Hwf)) as Hok.
  revert Hok.
  generalize (session_redact names (start_session self sid) (c :: text)).
  intros w Hok [<- _]%Some_pair_inv. by apply wf_put_session.
Qed.

Lemma clear_session_maps self sid :
  redaction_map (clear_session self sid) = delete sid (redaction_map self) /\
  token_counters (clear_session self sid) = delete sid (token_counters self).
Proof.
  unfold clear_session. simpl. split.
  - destruct (redaction_map self !! sid) eqn:H; [done|].
    by rewrite delete_id.
  - destruct (token_counters self !! sid) eqn:H; [done|].
    by rewrite delete_id.
Qed.

Lemma clear_session_wf self sid : wf self -> wf (clear_session self sid).
Proof.
  intros Hwf sid' m. destruct (clear_session_maps self sid) as [-> ->].
  destruct (decide (sid = sid')) as [<-|Hne].
  - by rewrite lookup_delete_eq.
  - rewrite !lookup_delete_ne by done. apply Hwf.
Qed.

Lemma reachable_wf names self : reachable names self -> wf self.
Proof.
  induction 1 as [|self text sid self' out _ IH Hr|self sid _ IH].
  - apply wf_init.
  - by eapply redact_wf.
  - by apply clear_session_wf.
Qed.

(** ** Sessions the object does not hold, and the empty text *)

Lemma restore_unknown self text sid :
  redaction_map self !! sid = None -> restore self text sid = text.
Proof. intros H. unfold restore. rewrite H. by destruct text. Qed.

Lemma clear_session_unknown self sid :
  redaction_map self !! sid = None -> token_counters self !! sid = None ->
  clear_session self sid = self.
Proof.
  intros Hm Hc. apply redactor_eq; unfold clear_session; simpl.
  - by rewrite Hm.
  - by rewrite Hc.
Qed.

Lemma clear_session_lookup self sid :
  redaction_map (clear_session self sid) !! sid = None /\
  token_counters (clear_session self sid) !! sid = None.
Proof.
  destruct (clear_session_maps self sid) as [-> ->].
  by rewrite !lookup_delete_eq.
Qed.

Lemma clear_session_idempotent self sid :
  clear_session (clear_session self sid) sid = clear_session self sid.
Proof.
  destruct (clear_session_lookup self sid). by apply clear_session_unknown.
Qed.

Lemma stats_unknown self sid :
  redaction_map self !! sid = None ->
  get_redaction_stats self sid = {| total_redactions := 0; by_type := ∅ |}.
Proof. intros H. unfold get_redaction_stats. by rewrite H. Qed.

(** C7.  For every session [sid], [redact("", sid)] returns [("", {})]
    and leaves the object exactly as it was (no session state is
    created), and [restore("", sid)] returns [""]. *)
Theorem empty_input names self sid :
  redact names self [] sid = Some (self, ([], ∅)) /\
  restore self [] sid = [].
Proof. split; [done|]. unfold restore. by destruct (redaction_map self !! sid). Qed.

(** C8.  For a session [sid] without recorded state, the statistics are
    the zero structure, the export is the empty structure, [restore]
    returns any text unchanged and [clear_session] leaves the object as
    it is.  The four operations are total functions: none has a failing
    case. *)
Theorem unknown_session_safe self sid :
  redaction_map self !! sid = None ->
  token_counters self !! sid = None ->
  get_redaction_stats self sid = {| total_redactions := 0; by_type := ∅ |} /\
  export_redaction_map self sid = ExportEmpty /\
  (forall text, restore self text sid = text) /\
  clear_session self sid = self.
Proof.
  intros Hm Hc. split; [by apply stats_unknown|]. split.
  - unfold export_redaction_map. by rewrite Hm.
  - split; [intros; by apply restore_unknown|by apply clear_session_unknown].
Qed.

Lemma unknown_session_safe_witness :
  get_redaction_stats init (py "s") =
    {| total_redactions := 0; by_type := ∅ |} /\
  export_redaction_map init (py "s") = ExportEmpty /\
  (forall text, restore init text (py "s") = text) /\
  clear_session init (py "s") = init.
Proof. apply unknown_session_safe; reflexivity. Defined.

(** ** One session does not see another *)

Lemma redact_other_session names self text A B self' out :
  wf self -> A <> B -> redact names self text A = Some (self', out) ->
  redaction_map self' !! B = redaction_map self !! B /\
  token_counters self' !! B = token_counters self !! B.
Proof.
  intros Hwf Hne. rewrite redact_wf_view by done.
  destruct text as [|c text]; [by intros [= <- _]|].
  cbv zeta. generalize (session_redact names (start_session self A) (c :: text)).
  intros w [<- _]%Some_pair_inv. unfold put_session.
  cbn [redaction_map token_counters]. by rewrite !lookup_insert_ne.
Qed.

Lemma redact_total names self text sid :
  wf self -> exists self' out, redact names self text sid = Some (self', out).
Proof.
  intros Hwf. rewrite redact_wf_view by done.
  destruct text as [|c text]; [by eexists _, _|].
  cbv zeta. generalize (session_redact names (start_session self sid) (c :: text)).
  intros w. by eexists _, _.
Qed.

Lemma stats_same_map self self' sid :
  redaction_map self' !! sid = redaction_map self !! sid ->
  get_redaction_stats self' sid = get_redaction_stats self sid.
Proof. unfold get_redaction_stats. by intros ->. Qed.

(** C5.  For distinct sessions [A] and [B], any sequence of [redact]
    calls in session [A] runs to its end and leaves the token mapping
    and the counters of [B] as they were, so none of the tokens minted
    for [A] is in [B]'s mapping, and [get_redaction_stats(B)] returns
    what it returned before. *)
Theorem session_isolation names self A B texts :
  reachable names self -> A <> B ->
  exists self',
    redact_all names self texts A = Some self' /\
    redaction_map self' !! B = redaction_map self !! B /\
    token_counters self' !! B = token_counters self !! B /\
    get_redaction_stats self' B = get_redaction_stats self B.
Proof.
  intros Hr Hne. revert self Hr.
  induction texts as [|text texts IH]; intros self Hr; simpl.
  - exists self. done.
  - pose proof (reachable_wf _ _ Hr) as Hwf.
    destruct (redact_total names self text A Hwf) as (self1 & out & H1).
    rewrite H1. simpl.
    destruct (redact_other_session _ _ _ _ _ _ _ Hwf Hne H1) as [Hm Hc].
    destruct (IH self1) as (self' & Hall & Hm' & Hc' & Hs').
    { by eapply reach_redact. }
    exists self'. split; [done|]. rewrite Hm', Hc', Hs'.
    split; [done|]. split; [done|]. by apply stats_same_map.
Qed.

Lemma session_isolation_witness :
  exists self',
    redact_all KNOWN_NAMES init [py "Madhu"; py "a@b.co"] (py "a") = Some self' /\
    redaction_map self' !! py "b" = redaction_map init !! py "b" /\
    token_counters self' !! py "b" = token_counters init !! py "b" /\
    get_redaction_stats self' (py "b") = get_redaction_stats init (py "b").
Proof.
  apply (session_isolation KNOWN_NAMES init (py "a") (py "b")).
  - apply reach_init.
  - discriminate.
Defined.

(** ** Reuse of tokens *)

Lemma lookup_value_app (m l : list (str * str)) v tv :
  lookup_value m v = Some tv -> lookup_value (m ++ l) v = Some tv.
Proof.
  unfold lookup_value. induction m as [|[t' v'] m IH]; simpl; [done|].
  destruct (bool_decide (v' = v)); [done|apply IH].
Qed.

Lemma tokenize_lookup (s : session) ty v :
  numbered s ->
  lookup_value (tokenize s ty v).1.1 v = Some ((tokenize s ty v).2, v).
Proof.
  intros Hn. destruct (tokenize_grows s ty v Hn) as [Heq|(Hl & _ & ->)].
  - unfold tokenize in *.
    destruct (lookup_value s.1 v) as [[t v']|] eqn:Hl; simpl in *.
    + apply lookup_value_Some in Hl as Hv. destruct Hv as [-> _]. done.
    + exfalso. pose proof (numbered_fresh _ ty Hn) as Hf.
      rewrite dict_set_new in Heq by done.
      apply (f_equal length) in Heq. rewrite length_app in Heq. simpl in Heq. lia.
  - by apply lookup_value_app_new.
Qed.

Lemma tokenize_keeps_lookup (s : session) ty v v' tv :
  numbered s -> lookup_value s.1 v = Some tv ->
  lookup_value (tokenize s ty v').1.1 v = Some tv.
Proof.
  intros Hn Hl. destruct (tokenize_grows s ty v' Hn) as [->|(_ & _ & ->)];
    [done|by apply lookup_value_app].
Qed.

Lemma tokenize_each_view self sid requests s v tv :
  session_ok s -> lookup_value s.1 v = Some tv ->
  exists s',
    tokenize_each (put_session self sid s) sid requests =
      Some (put_session self sid s') /\
    session_ok s' /\ lookup_value s'.1 v = Some tv.
Proof.
  revert s. induction requests as [|[ty v'] requests IH]; intros s Hok Hl.
  - exists s. done.
  - simpl.
    rewrite (get_or_create_token_view _ _ _ _ _ (session_view_put _ _ _)).
    simpl. rewrite put_session_put.
    apply IH; [by apply tokenize_ok|]. apply tokenize_keeps_lookup; [|done].
    apply Hok.
Qed.

Lemma get_or_create_token_wf self sid ty v self' t :
  wf self -> _get_or_create_token self sid ty v = Some (self', t) ->
  exists s, session_view self sid = Some s /\ session_ok s /\
            self' = put_session self sid (tokenize s ty v).1 /\
            t = (tokenize s ty v).2.
Proof.
  intros Hwf H.
  destruct (redaction_map self !! sid) as [m|] eqn:Hm.
  2: { unfold _get_or_create_token in H. by rewrite Hm in H. }
  destruct (wf_session_view _ _ _ Hwf Hm) as (cs & Hs & Hok).
  rewrite (get_or_create_token_view _ _ _ _ _ Hs) in H.
  injection H as <- <-. by exists (m, cs).
Qed.

(** C10.  The reverse lookup of [_get_or_create_token] does not look at
    the category.  Once a value [v] has a token [t] from a request under
    category [X] (a token with the label [X] when it was minted by that
    request), a request for [v] under any category [Y], after any further
    requests in the session, returns [t] again and leaves the object,
    and so the counter of [Y], as it is. *)
Theorem cross_category_reuse names self sid X Y v self1 t requests :
  reachable names self ->
  _get_or_create_token self sid X v = Some (self1, t) ->
  (forall m, redaction_map self !! sid = Some m ->
             lookup_value m v = None -> has_label X t) /\
  exists self2,
    tokenize_each self1 sid requests = Some self2 /\
    _get_or_create_token self2 sid Y v = Some (self2, t).
Proof.
  intros Hr H. pose proof (reachable_wf _ _ Hr) as Hwf.
  destruct (get_or_create_token_wf _ _ _ _ _ _ Hwf H)
    as (s & Hs & Hok & -> & ->).
  split.
  - intros m Hm Hl. apply session_view_Some in Hs as [Hm' _].
    rewrite Hm in Hm'. injection Hm' as ->.
    rewrite tokenize_new by done. simpl. apply rsplit_token_of.
  - destruct (tokenize_each_view self sid requests (tokenize s X v).1 v
                ((tokenize s X v).2, v)) as (s2 & Hall & Hok2 & Hl2).
    { by apply tokenize_ok. }
    { apply tokenize_lookup, Hok. }
    exists (put_session self sid s2). split; [done|].
    rewrite (get_or_create_token_view _ _ _ _ _ (session_view_put _ _ _)).
    rewrite (tokenize_found _ _ _ _ _ Hl2). simpl.
    by rewrite put_session_put.
Qed.

Lemma sample_reachable : reachable KNOWN_NAMES sample.
Proof.
  apply (reach_redact _ init (py "Madhu") (py "s") sample
           (py "[PERSON_1]", sample_redactions));
    [apply reach_init|].
  vm_compute. reflexivity.
Qed.

Lemma cross_category_reuse_witness :
  exists self1,
    _get_or_create_token sample (py "s") (py "EMAIL") (py "x@y.zz") =
      Some (self1, py "EMAIL_1") /\
    exists self2,
      tokenize_each self1 (py "s") [(py "SSN", py "123-45-6789")] =
        Some self2 /\
      _get_or_create_token self2 (py "s") (py "PHONE") (py "x@y.zz") =
        Some (self2, py "EMAIL_1").
Proof.
  assert (_get_or_create_token sample (py "s") (py "EMAIL") (py "x@y.zz") =
          Some (put_session sample (py "s")
                  ([(py "PERSON_1", py "Madhu"); (py "EMAIL_1", py "x@y.zz")],
                   <[py "EMAIL" := 1]> {[py "PERSON" := 1]}),
                py "EMAIL_1")) as H by (vm_compute; reflexivity).
  eexists. split; [exact H|].
  exact (proj2 (cross_category_reuse KNOWN_NAMES sample (py "s") (py "EMAIL")
                  (py "PHONE") (py "x@y.zz") _ (py "EMAIL_1")
                  [(py "SSN", py "123-45-6789")] sample_reachable H)).
Defined.

(** ** Counters *)

Lemma numbered_length (s : session) L :
  numbered s ->
  default 0 (s.2 !! L) = N.of_nat (length (tokens_of L s.1)).
Proof. intros Hn. rewrite (Hn L), length_map, length_seq. lia. Qed.

Lemma numbered_tokens (s : session) L :
  numbered s ->
  tokens_of L s.1 =
  map (fun i => token_of L (N.of_nat i)) (seq 1 (length (tokens_of L s.1))).
Proof.
  intros Hn. rewrite (Hn L) at 1. by rewrite (Hn L), length_map, length_seq.
Qed.

(** C4.  The counter of a category is absent (read as 0) in a session
    that starts, and it always equals the number of tokens minted under
    the category, which carry the suffixes 1, 2, ... in the order they
    were minted.  A request for a value that has a token returns that
    token and leaves the object, and so every counter, unchanged; a
    request for a new value under a category with [k] tokens increments
    the counter to [k + 1], mints the token with suffix [k + 1] and
    appends it to the mapping. *)
Theorem counter_monotonicity names self sid ty v :
  reachable names self ->
  (redaction_map self !! sid = None ->
   token_counters (init_session self sid) !! sid = Some ∅) /\
  forall m cs,
    redaction_map self !! sid = Some m ->
    token_counters self !! sid = Some cs ->
    let k := length (tokens_of ty m) in
    tokens_of ty m = map (fun i => token_of ty (N.of_nat i)) (seq 1 k) /\
    default 0 (cs !! ty) = N.of_nat k /\
    match lookup_value m v with
    | Some (t, _) => _get_or_create_token self sid ty v = Some (self, t)
    | None =>
        let token := token_of ty (N.of_nat (S k)) in
        _get_or_create_token self sid ty v =
        Some (put_session self sid
                (m ++ [(token, v)], <[ty := N.of_nat (S k)]> cs),
              token)
    end.
Proof.
  intros Hr. pose proof (reachable_wf _ _ Hr) as Hwf. split.
  - intros Hm. unfold init_session. rewrite Hm. simpl.
    by rewrite lookup_insert_eq.
  - intros m cs Hm Hc k.
    destruct (Hwf _ _ Hm) as (cs' & Hc' & [Hn Hv]).
    rewrite Hc in Hc'. injection Hc' as <-.
    pose proof (numbered_tokens _ ty Hn) as Ht.
    pose proof (numbered_length _ ty Hn) as Hk. simpl in Ht, Hk.
    split; [done|]. split; [done|].
    assert (session_view self sid = Some (m, cs)) as Hs.
    { by apply session_view_Some. }
    rewrite (get_or_create_token_view _ _ _ _ _ Hs).
    destruct (lookup_value m v) as [[t v']|] eqn:Hl.
    + rewrite (tokenize_found (m, cs) ty v t v' Hl). simpl.
      by rewrite put_session_id.
    + rewrite (tokenize_new (m, cs) ty v Hl). simpl. rewrite Hk.
      fold k. replace (N.of_nat k + 1) with (N.of_nat (S k)) by lia.
      rewrite dict_set_new; [done|].
      pose proof (numbered_fresh _ ty Hn) as Hf. simpl in Hf.
      rewrite Hk in Hf. fold k in Hf.
      by replace (N.of_nat k + 1) with (N.of_nat (S k)) in Hf by lia.
Qed.

Lemma counter_monotonicity_witness :
  _get_or_create_token sample (py "s") (py "PERSON") (py "Akhil") =
  Some (put_session sample (py "s")
          ([(py "PERSON_1", py "Madhu"); (py "PERSON_2", py "Akhil")],
           <[py "PERSON" := 2]> {[py "PERSON" := 1]}),
        py "PERSON_2").
Proof.
  pose proof (counter_monotonicity KNOWN_NAMES sample (py "s") (py "PERSON")
                (py "Akhil") sample_reachable) as [_ H].
  assert (redaction_map sample !! py "s" = Some [(py "PERSON_1", py "Madhu")])
    as Hm by (vm_compute; reflexivity).
  assert (token_counters sample !! py "s" = Some {[py "PERSON" := 1]})
    as Hc by (vm_compute; reflexivity).
  destruct (H _ _ Hm Hc) as (_ & _ & H'). exact H'.
Defined.

(** ** Clearing a session *)

Lemma session_view_init_fresh self sid :
  redaction_map self !! sid = None ->
  session_view (init_session self sid) sid = Some ([], ∅).
Proof.
  intros Hm. unfold init_session. rewrite Hm.
  apply session_view_Some. simpl. by rewrite !lookup_insert_eq.
Qed.

(** C6.  After [clear_session(sid)] the statistics of [sid] are the zero
    structure.  A [redact] call that follows runs in a session that
    starts empty: the tokens its mapping then holds are those the call
    minted, and for each category they carry the suffixes 1, 2, ... in
    order, so that the first request of any category mints the token
    with suffix 1.  Clearing twice is clearing once, and clearing a
    session without recorded state changes nothing. *)
Theorem clear_then_query names self sid text :
  get_redaction_stats (clear_session self sid) sid =
    {| total_redactions := 0; by_type := ∅ |} /\
  (exists self' out,
     redact names (clear_session self sid) text sid = Some (self', out) /\
     forall L,
       tokens_of L (default [] (redaction_map self' !! sid)) =
       map (fun i => token_of L (N.of_nat i))
         (seq 1 (length (tokens_of L (default [] (redaction_map self' !! sid)))))) /\
  (forall L v,
     exists self',
       _get_or_create_token (init_session (clear_session self sid) sid) sid L v =
       Some (self', token_of L 1)) /\
  clear_session (clear_session self sid) sid = clear_session self sid /\
  (redaction_map self !! sid = None -> token_counters self !! sid = None ->
   clear_session self sid = self).
Proof.
  destruct (clear_session_lookup self sid) as [Hm Hc].
  split; [by apply stats_unknown|]. split; [|split; [|split]].
  - destruct text as [|c text].
    + exists (clear_session self sid), ([], ∅). split; [done|].
      intros L. by rewrite Hm.
    + rewrite (redact_session_view _ _ _ _ _ _ (session_view_init_fresh _ _ Hm)).
      eexists _, _. split; [done|]. intros L. cbn [redaction_map put_session].
      rewrite lookup_insert_eq. cbn [default].
      apply numbered_tokens. apply session_redact_ok, session_ok_empty.
  - intros L v.
    rewrite (get_or_create_token_view _ _ _ _ _
               (session_view_init_fresh _ _ Hm)).
    eexists. rewrite tokenize_new by done. simpl. by rewrite lookup_empty.
  - apply clear_session_idempotent.
  - apply clear_session_unknown.
Qed.

(** ** The scenario *)

Lemma stats_put_session (self : PIIRedactor) (sid : str) (s : session) :
  get_redaction_stats (put_session self sid s) sid =
  {| total_redactions := length s.1; by_type := count_types s.1 |}.
Proof.
  unfold get_redaction_stats. simpl. by rewrite lookup_insert_eq.
Qed.

Lemma scenario_session i :
  session_redact (names_with_john i) ([], ∅) scenario_text =
  {| s_session :=
       ([(py "PERSON_1", py "John"); (py "EMAIL_1", py "john@example.com");
         (py "PHONE_1", py "555-123-4567")],
        <[py "PHONE" := 1]> (<[py "EMAIL" := 1]> (<[py "PERSON" := 1]> ∅)));
     s_text := py "Contact [PERSON_1] at [EMAIL_1] or [PHONE_1]";
     s_redactions := scenario_redactions |}.
Proof.
  do 6 (destruct i as [|i]; [vm_compute; reflexivity|]).
  unfold names_with_john.
  rewrite take_ge, drop_ge by (simpl; lia).
  vm_compute. reflexivity.
Qed.

(** C9.  In a session without recorded state, with ["John"] anywhere in
    the Known-Value List, redacting the text of the scenario returns
    ["Contact [PERSON_1] at [EMAIL_1] or [PHONE_1]"], the metadata maps
    the three tokens to ["John"], ["john@example.com"] and
    ["555-123-4567"], and the statistics of the session are then 3 in
    total, 1 for each of [PERSON], [EMAIL] and [PHONE]. *)
Theorem concrete_scenario self sid i :
  redaction_map self !! sid = None ->
  exists self',
    redact (names_with_john i) self scenario_text sid =
      Some (self',
            (py "Contact [PERSON_1] at [EMAIL_1] or [PHONE_1]",
             scenario_redactions)) /\
    get_redaction_stats self' sid = scenario_stats.
Proof.
  intros Hm.
  assert (scenario_text <> []) as Hne by (by vm_compute).
  rewrite (redact_nonempty_view _ _ _ _ _ Hne (session_view_init_fresh _ _ Hm)).
  rewrite scenario_session. cbn [s_session s_text s_redactions].
  eexists. split; [reflexivity|].
  rewrite stats_put_session. vm_compute. reflexivity.
Qed.

Lemma concrete_scenario_witness :
  exists self',
    redact (names_with_john 6) init scenario_text (py "s") =
      Some (self',
            (py "Contact [PERSON_1] at [EMAIL_1] or [PHONE_1]",
             scenario_redactions)) /\
    get_redaction_stats self' (py "s") = scenario_stats.
Proof. apply concrete_scenario. vm_compute. reflexivity. Defined.

(** With the Known-Value List as the source has it (without ["John"]),
    the name pattern takes ["Contact John"] as a person name. *)
Remark scenario_source_list :
  (s_text (session_redact KNOWN_NAMES ([], ∅) scenario_text),
   (s_session (session_redact KNOWN_NAMES ([], ∅) scenario_text)).1) =
  (py "[PERSON_1] at [EMAIL_1] or [PHONE_1]",
   [(py "EMAIL_1", py "john@example.com"); (py "PHONE_1", py "555-123-4567");
    (py "PERSON_1", py "Contact John")]).
Proof. vm_compute. reflexivity. Qed.

(** ** The statistical backend *)

Section AdvancedFacts.
Variables Vault Risk Exn : Type.
Variable new_vault : Vault.
Variable scan : Vault -> str -> Vault * (Exn + (str * bool * Risk)).
Variable names : list str.

(** The object [__init__] makes when the scanner is available has no
    fallback redactor. *)
Lemma advanced_init_guard :
  advanced_init Vault new_vault true true =
  {| use_llm_guard := true; vault := Some new_vault;
     fallback_redactor := None |}.
Proof. reflexivity. Qed.

Lemma advanced_redact_scan_raises c text sid v e :
  scan new_vault (c :: text) = (v, inl e) ->
  advanced_redact Vault Risk Exn scan names
    (advanced_init Vault new_vault true true) (c :: text) sid =
  Raises (AttributeError (py "fallback_redactor")).
Proof.
  intros H. rewrite advanced_init_guard. unfold advanced_redact. simpl.
  by rewrite H.
Qed.
End AdvancedFacts.

(** C3 (what the code does).  With the scanner available, a scan that
    raises makes [redact] raise [AttributeError] : the handler reads
    [self.fallback_redactor], which [__init__] creates only when the
    scanner is not available. *)
Theorem scan_failure_escapes (c : ascii) (text sid : str) :
  advanced_redact unit unit unit (fun v _ => (v, inl tt)) KNOWN_NAMES
    (advanced_init unit tt true true) (c :: text) sid =
  Raises (AttributeError (py "fallback_redactor")).
Proof. by apply advanced_redact_scan_raises with (v := tt) (e := tt). Qed.

(** ** The metadata of a call and the mapping of its session *)

Lemma dict_get_app {V} (m l : list (str * V)) t x :
  dict_get m t = Some x -> dict_get (m ++ l) t = Some x.
Proof.
  induction m as [|[k v] m IH]; simpl; [done|].
  destruct (decide (k = t)); [done|apply IH].
Qed.

Lemma dict_get_prefix {V} (m m' : list (str * V)) t x :
  m `prefix_of` m' -> dict_get m t = Some x -> dict_get m' t = Some x.
Proof. intros [l ->]. apply dict_get_app. Qed.

Lemma tokenize_prefix (s : session) ty v :
  numbered s -> s.1 `prefix_of` (tokenize s ty v).1.1.
Proof.
  intros Hn. destruct (tokenize_grows s ty v Hn) as [->|(_ & _ & ->)];
    [done|by apply prefix_app_r].
Qed.

Lemma tokenize_get (s : session) ty v :
  numbered s -> dict_get (tokenize s ty v).1.1 (tokenize s ty v).2 = Some v.
Proof.
  intros Hn. pose proof (tokenize_lookup s ty v Hn) as Hl.
  apply lookup_value_Some in Hl as [_ Hin].
  apply dict_get_elem; [|done].
  apply numbered_NoDup. by apply tokenize_numbered.
Qed.

Lemma value_step_call_ok s0 ty desc v w :
  call_ok s0 w -> call_ok s0 (value_step ty desc v w).
Proof.
  intros (Hok & Hmd & Hpre). pose proof Hok as [Hn _].
  split; [by apply value_step_ok|]. split.
  - intros t i. unfold value_step. cbn [s_redactions s_session].
    destruct (decide ((tokenize (s_session w) ty v).2 = t)) as [<-|Hne].
    + rewrite lookup_insert_eq. intros [= <-]. simpl. by apply tokenize_get.
    + rewrite lookup_insert_ne by done. intros Hi.
      eapply dict_get_prefix; [by apply tokenize_prefix|]. by apply Hmd.
  - unfold value_step. cbn [s_session]. etrans; [done|].
    by apply tokenize_prefix.
Qed.

Lemma name_step_call_ok s0 w name : call_ok s0 w -> call_ok s0 (name_step w name).
Proof.
  unfold name_step. destruct (str_in _ _); [apply value_step_call_ok|done].
Qed.

Lemma match_step_call_ok s0 c w v : call_ok s0 w -> call_ok s0 (match_step c w v).
Proof.
  unfold match_step. destruct (_ && _); [done|apply value_step_call_ok].
Qed.

Lemma pattern_step_call_ok s0 w kc : call_ok s0 w -> call_ok s0 (pattern_step w kc).
Proof.
  intros H. unfold pattern_step.
  apply (fold_left_inv (call_ok s0)); [done|].
  intros. by apply match_step_call_ok.
Qed.

Lemma session_redact_call_ok names s text :
  session_ok s -> call_ok s (session_redact names s text).
Proof.
  intros H. unfold session_redact.
  apply (fold_left_inv (call_ok s)).
  - apply (fold_left_inv (call_ok s)).
    + split; [done|]. split; [|done]. intros t i. cbn [s_redactions].
      by rewrite lookup_empty.
    + intros. by apply name_step_call_ok.
  - intros. by apply pattern_step_call_ok.
Qed.

(** What a [redact] call leaves in its session, on a well-formed
    object. *)
Lemma redact_call_ok names self text sid self' r md :
  wf self -> redact names self text sid = Some (self', (r, md)) ->
  wf self' /\
  (forall B m, redaction_map self !! B = Some m ->
     exists m', redaction_map self' !! B = Some m' /\ m `prefix_of` m') /\
  (forall t i, md !! t = Some i ->
     dict_get (default [] (redaction_map self' !! sid)) t = Some (original i)).
Proof.
  intros Hwf Hr. split; [by eapply redact_wf|]. revert Hr.
  rewrite redact_wf_view by done. destruct text as [|c text].
  - intros [<- [_ <-]%pair_eq]%Some_pair_inv. split.
    + intros B m Hm. by exists m.
    + intros t i. by rewrite lookup_empty.
  - cbv zeta.
    pose proof (session_redact_call_ok names _ (c :: text)
                  (wf_start_session_ok self sid Hwf)) as (Hok & Hmd & Hpre).
    revert Hok Hmd Hpre.
    generalize (session_redact names (start_session self sid) (c :: text)).
    intros w Hok Hmd Hpre [<- [_ <-]%pair_eq]%Some_pair_inv. split.
    + intros B m Hm. unfold put_session. cbn [redaction_map].
      destruct (decide (sid = B)) as [<-|Hne].
      * rewrite lookup_insert_eq. eexists. split; [done|].
        destruct (wf_session_view _ _ _ Hwf Hm) as (cs & Hs & _).
        unfold start_session in Hpre. by rewrite Hs in Hpre.
      * rewrite lookup_insert_ne by done. by exists m.
    + intros t i Hi. unfold put_session. cbn [redaction_map].
      rewrite lookup_insert_eq. by apply Hmd.
Qed.

Lemma redacts_grows names self self' :
  wf self -> redacts names self self' ->
  wf self' /\
  forall B m, redaction_map self !! B = Some m ->
    exists m', redaction_map self' !! B = Some m' /\ m `prefix_of` m'.
Proof.
  intros Hwf Hrs. induction Hrs as [self|self text sid self1 out self2 Hr _ IH].
  - split; [done|]. intros B m Hm. by exists m.
  - destruct out as [r md].
    destruct (redact_call_ok _ _ _ _ _ _ _ Hwf Hr) as (Hwf1 & Hg1 & _).
    destruct (IH Hwf1) as [Hwf2 Hg2]. split; [done|].
    intros B m Hm. destruct (Hg1 _ _ Hm) as (m1 & Hm1 & Hp1).
    destruct (Hg2 _ _ Hm1) as (m2 & Hm2 & Hp2).
    exists m2. split; [done|]. by etrans.
Qed.

Lemma distinct_values_token (m : list (str * str)) t1 t2 v :
  NoDup (map snd m) -> (t1, v) ∈ m -> (t2, v) ∈ m -> t1 = t2.
Proof.
  induction m as [|[t' v'] m IH]; simpl; intros Hnd H1 H2.
  - by apply elem_of_nil in H1.
  - apply NoDup_cons in Hnd as [Hv' Hnd].
    assert (forall t, (t, v) ∈ m -> v' <> v) as Hne.
    { intros t Hin ->. apply Hv'. apply list_elem_of_fmap. by exists (t, v). }
    apply elem_of_cons in H1 as [E1|H1]; apply elem_of_cons in H2 as [E2|H2].
    + congruence.
    + exfalso. apply (Hne _ H2). congruence.
    + exfalso. apply (Hne _ H1). congruence.
    + by apply IH.
Qed.

Lemma lookup_value_unique (m : list (str * str)) t v :
  NoDup (map snd m) -> (t, v) ∈ m -> lookup_value m v = Some (t, v).
Proof.
  intros Hnd Hin. destruct (lookup_value m v) as [[t' v']|] eqn:Hl.
  - apply lookup_value_Some in Hl as [-> Hin'].
    by rewrite (distinct_values_token m t t' v Hnd Hin Hin').
  - rewrite lookup_value_None in Hl. by destruct (Hl t).
Qed.



(** ** Replacement of all occurrences *)

Lemma replace_replace_go (old new s : str) :
  old <> [] -> replace s old new = replace_go old new 0 s.
Proof. unfold replace. by destruct old. Qed.

Lemma replace_go_skip (old new pre rest : str) :
  replace_go old new (length pre) (pre ++ rest) = replace_go old new 0 rest.
Proof. induction pre as [|c pre IH]; simpl; [by destruct rest|done]. Qed.

Lemma replace_go_match (old new rest : str) :
  old <> [] ->
  replace_go old new 0 (old ++ rest) = new ++ replace_go old new 0 rest.
Proof.
  intros Hold. pose proof (startswith_app rest old) as Hs.
  destruct old as [|o old']; [done|].
  change ((o :: old') ++ rest) with (o :: (old' ++ rest)) in *.
  cbn [replace_go]. rewrite Hs. f_equal.
  replace (length (o :: old') - 1)%nat with (length old') by (simpl; lia).
  apply replace_go_skip.
Qed.

Lemma replace_go_nomatch (old new : str) c s :
  startswith (c :: s) old = false ->
  replace_go old new 0 (c :: s) = c :: replace_go old new 0 s.
Proof. intros H. cbn [replace_go]. by rewrite H. Qed.

(** A prefix without the character [c] that reaches [c] lies before it. *)
Lemma prefix_before (old a b s' : str) c :
  c ∉ old -> a ++ c :: b = old ++ s' ->
  exists a2, a = old ++ a2 /\ s' = a2 ++ c :: b.
Proof.
  revert a. induction old as [|o old' IH]; intros a Hc H.
  - exists a. done.
  - apply not_elem_of_cons in Hc as [Hne Hc].
    destruct a as [|x a]; simpl in H.
    + injection H as -> _. done.
    + injection H as -> H. destruct (IH a Hc H) as (a2 & -> & ->).
      by exists a2.
Qed.

Lemma startswith_first_ne (old s : str) c :
  old <> [] -> c ∉ old -> startswith (c :: s) old = false.
Proof.
  intros Hold Hc. destruct old as [|o old']; [done|].
  apply not_elem_of_cons in Hc as [Hne _].
  cbn [startswith]. apply andb_false_iff. left. apply chr_eqb_neq. congruence.
Qed.

(** Replacement works on both sides of a character that is not in
    [old]. *)
Lemma replace_go_separator (old new : str) c a b :
  old <> [] -> c ∉ old ->
  replace_go old new 0 (a ++ c :: b) =
  replace_go old new 0 a ++ c :: replace_go old new 0 b.
Proof.
  intros Hold Hc. remember (length a) as n eqn:Hn. revert a Hn.
  induction n as [n IH] using lt_wf_ind. intros a Hn.
  destruct a as [|x a].
  - simpl app. apply replace_go_nomatch. by apply startswith_first_ne.
  - destruct (startswith ((x :: a) ++ c :: b) old) eqn:Hs.
    + apply startswith_inv in Hs as [s' Hs].
      destruct (prefix_before _ _ _ _ _ Hc Hs) as (a2 & Ha & ->).
      rewrite Hs, Ha, !replace_go_match, <- app_assoc by done. f_equal.
      apply (IH (length a2)); [|done].
      rewrite Hn, Ha, length_app.
      destruct old; [done|simpl; lia].
    + change ((x :: a) ++ c :: b) with (x :: (a ++ c :: b)) in *.
      rewrite (replace_go_nomatch _ _ _ _ Hs).
      rewrite replace_go_nomatch.
      * simpl. f_equal. apply (IH (length a)); [simpl in Hn; lia|done].
      * destruct (startswith (x :: a) old) eqn:Hs'; [|done].
        apply startswith_inv in Hs' as [s' Hs'].
        rewrite <- Hs. change (x :: (a ++ c :: b)) with ((x :: a) ++ c :: b).
        rewrite Hs', <- app_assoc. symmetry. apply startswith_app.
Qed.

Lemma replace_go_absent (old new s : str) :
  ~ occurs old s -> replace_go old new 0 s = s.
Proof.
  induction s as [|c s IH]; intros H; [done|].
  rewrite replace_go_nomatch.
  - f_equal. apply IH. by eapply not_occurs_cons.
  - destruct (startswith (c :: s) old) eqn:Hs; [|done].
    apply startswith_inv in Hs as [s' Hs]. destruct H. by exists [], s'.
Qed.

(** No occurrence starts in a text without the first character of
    [old]. *)
Lemma replace_go_first_absent (new : str) o old' a b :
  o ∉ a ->
  replace_go (o :: old') new 0 (a ++ b) = a ++ replace_go (o :: old') new 0 b.
Proof.
  induction a as [|x a IH]; intros Ho; [done|].
  apply not_elem_of_cons in Ho as [Hne Ho].
  change ((x :: a) ++ b) with (x :: (a ++ b)).
  rewrite replace_go_nomatch.
  - simpl. f_equal. by apply IH.
  - cbn [startswith]. apply andb_false_iff. left. by apply chr_eqb_neq.
Qed.

(** ** Matches *)

Lemma orelse_Some {A} (x y : option A) r :
  orelse x y = Some r -> x = Some r \/ y = Some r.
Proof. destruct x; simpl; auto. Qed.

Lemma rep_loop_sound (body : option ascii -> str -> cont -> option str)
    (a : regex) (k : cont) :
  (forall prev s k' res, body prev s k' = Some res ->
     exists w s' prev', s = w ++ s' /\ lang a w /\ k' prev' s' = Some res) ->
  forall n lo prev s res,
    rep_loop body k n lo prev s = Some res ->
    exists ws s' prev',
      s = concat ws ++ s' /\ Forall (lang a) ws /\ (lo <= length ws)%nat /\
      k prev' s' = Some res.
Proof.
  intros Hbody.
  assert (forall lo prev s res,
            (if Nat.eqb lo 0 then k prev s else None) = Some res ->
            exists ws s' prev',
              s = concat ws ++ s' /\ Forall (lang a) ws /\
              (lo <= length ws)%nat /\ k prev' s' = Some res) as Hstop.
  { intros lo prev s res H. destruct (Nat.eqb_spec lo 0) as [->|]; [|done].
    exists [], s, prev. repeat split; [constructor|done|done]. }
  induction n as [|n IH]; intros lo prev s res H; simpl in H.
  - by apply (Hstop lo prev).
  - apply orelse_Some in H as [H|H]; [|by apply (Hstop lo prev)].
    apply Hbody in H as (w & s1 & prev1 & -> & Hw & H).
    apply IH in H as (ws & s' & prev' & -> & Hws & Hlo & H).
    exists (w :: ws), s', prev'. simpl. rewrite <- app_assoc.
    repeat split; [by constructor|lia|done].
Qed.

Lemma mt_sound r : forall prev s (k : cont) res,
  mt r prev s k = Some res ->
  exists w s' prev', s = w ++ s' /\ lang r w /\ k prev' s' = Some res.
Proof.
  induction r as [p| | |r1 IH1 r2 IH2|r1 IH1 r2 IH2|r1 IH1 lo hi];
    intros prev s k res H; simpl in H.
  - destruct s as [|c s]; [done|]. destruct (p c) eqn:Hp; [|done].
    exists [c], s, (Some c). repeat split; [|done]. by exists c.
  - destruct (xorb _ _); [|done]. by exists [], s, prev.
  - by exists [], s, prev.
  - apply IH1 in H as (w1 & s1 & p1 & -> & Hw1 & H).
    apply IH2 in H as (w2 & s2 & p2 & -> & Hw2 & H).
    exists (w1 ++ w2), s2, p2. rewrite <- app_assoc.
    repeat split; [|done]. by exists w1, w2.
  - apply orelse_Some in H as [H|H].
    + apply IH1 in H as (w & s' & p' & -> & Hw & H).
      exists w, s', p'. repeat split; [by left|done].
    + apply IH2 in H as (w & s' & p' & -> & Hw & H).
      exists w, s', p'. repeat split; [by right|done].
  - apply (rep_loop_sound _ r1 k IH1) in H
      as (ws & s' & p' & -> & Hws & Hlo & H).
    exists (concat ws), s', p'. repeat split; [|done]. by exists ws.
Qed.

Lemma finditer_go_sound r : forall s skip prev w,
  w ∈ finditer_go r skip prev s -> lang r w.
Proof.
  induction s as [|c s IH]; intros skip prev w H; cbn [finditer_go] in H.
  - by apply elem_of_nil in H.
  - destruct skip as [|skip]; [|by eapply IH].
    destruct (mt r prev (c :: s) _) as [rest|] eqn:Hm; [|by eapply IH].
    cbv zeta in H. apply elem_of_cons in H as [Hw|H]; [|by eapply IH].
    apply mt_sound in Hm as (w' & s' & p' & Hs & Hw' & [= <-]).
    rewrite Hs, length_app in Hw.
    replace (length w' + length s' - length s')%nat with (length w') in Hw
      by lia.
    rewrite take_app_length in Hw. by subst w.
Qed.

Lemma finditer_sound r s w : w ∈ finditer r s -> lang r w.
Proof. apply finditer_go_sound. Qed.

(** ** Characters of the matches *)

Lemma all_chars_all c : c ∈ all_chars.
Proof.
  unfold all_chars. apply list_elem_of_fmap. exists (nat_of_ascii c).
  split; [by rewrite ascii_nat_embedding|].
  apply elem_of_seq. pose proof (nat_ascii_bounded c). lia.
Qed.

Lemma cls_sub_spec p q c : cls_sub p q = true -> p c = true -> q c = true.
Proof.
  unfold cls_sub. rewrite forallb_forall. intros H Hp.
  specialize (H c). rewrite Hp in H. apply H.
  apply list_elem_of_In, all_chars_all.
Qed.

Lemma lang_chars_in q r : chars_in q r = true ->
  forall w, lang r w -> Forall (fun c => q c = true) w.
Proof.
  induction r as [p| | |r1 IH1 r2 IH2|r1 IH1 r2 IH2|r1 IH1 lo hi];
    simpl; intros Hq w Hw.
  - destruct Hw as (c & -> & Hp). constructor; [|constructor].
    by eapply cls_sub_spec.
  - subst w. constructor.
  - subst w. constructor.
  - apply andb_true_iff in Hq as [Hq1 Hq2].
    destruct Hw as (w1 & w2 & -> & Hw1 & Hw2). apply Forall_app. auto.
  - apply andb_true_iff in Hq as [Hq1 Hq2]. destruct Hw; auto.
  - destruct Hw as (ws & -> & Hws & _).
    induction Hws as [|w ws Hw _ IHws]; simpl; [constructor|].
    apply Forall_app. auto.
Qed.

Lemma count_chr_app q (a b : str) :
  count_chr q (a ++ b) = (count_chr q a + count_chr q b)%nat.
Proof. induction a as [|c a IH]; simpl; [done|]. rewrite IH. lia. Qed.

Lemma lang_min_count q r : forall w,
  lang r w -> (min_count q r <= count_chr q w)%nat.
Proof.
  induction r as [p| | |r1 IH1 r2 IH2|r1 IH1 r2 IH2|r1 IH1 lo hi];
    simpl; intros w Hw.
  - destruct Hw as (c & -> & Hp). destruct (cls_sub p q) eqn:Hs; [|lia].
    simpl. rewrite (cls_sub_spec _ _ _ Hs Hp). lia.
  - lia.
  - lia.
  - destruct Hw as (w1 & w2 & -> & Hw1 & Hw2). rewrite count_chr_app.
    specialize (IH1 _ Hw1). specialize (IH2 _ Hw2). lia.
  - destruct Hw as [Hw|Hw]; [specialize (IH1 _ Hw)|specialize (IH2 _ Hw)]; lia.
  - destruct Hw as (ws & -> & Hws & Hlo). revert lo Hlo.
    induction Hws as [|w ws Hw _ IHws]; intros lo Hlo; simpl in *.
    + assert (lo = 0)%nat as -> by lia. lia.
    + rewrite count_chr_app. specialize (IH1 _ Hw).
      destruct lo as [|lo]; [lia|]. specialize (IHws lo). simpl. lia.
Qed.

Lemma count_chr_occurs q (v t : str) :
  occurs v t -> (count_chr q v <= count_chr q t)%nat.
Proof. intros (a & b & ->). rewrite !count_chr_app. lia. Qed.

Lemma count_chr_all q (s : str) :
  Forall (fun c => q c = true) s -> count_chr (fun c => negb (q c)) s = 0%nat.
Proof. induction 1 as [|c s Hc _ IH]; simpl; [done|]. by rewrite Hc, IH. Qed.

Lemma count_chr_le_length q (s : str) : (count_chr q s <= length s)%nat.
Proof. induction s as [|c s IH]; simpl; [done|]. destruct (q c); lia. Qed.

Lemma count_chr_none q (s : str) :
  Forall (fun c => q c = false) s -> count_chr q s = 0%nat.
Proof. induction 1 as [|c s Hc _ IH]; simpl; [done|]. by rewrite Hc, IH. Qed.

(** The matches of a pattern that passes [pattern_ok] are admissible
    values. *)
Lemma pattern_ok_admissible r w :
  pattern_ok r = true -> lang r w -> admissible w = true.
Proof.
  unfold pattern_ok, admissible. intros [Hc Hn]%andb_true_iff Hw.
  apply andb_true_iff. split.
  - apply forallb_forall. intros c Hin.
    pose proof (lang_chars_in _ _ Hc _ Hw) as Hall.
    rewrite Forall_forall in Hall. apply Hall. by apply list_elem_of_In.
  - apply orb_true_iff in Hn as [Hn|Hn]; apply orb_true_iff; [left|right];
      apply Nat.leb_le; apply Nat.leb_le in Hn;
      (etrans; [exact Hn|by apply lang_min_count]).
Qed.

Lemma patterns_ok :
  forallb (fun kc : str * config => pattern_ok (pattern kc.2)) PII_PATTERNS
  = true.
Proof. vm_compute. reflexivity. Qed.

Lemma known_names_admissible : forallb admissible KNOWN_NAMES = true.
Proof. vm_compute. reflexivity. Qed.

Lemma labels_ok : forallb label_ok LABELS = true.
Proof. vm_compute. reflexivity. Qed.

Lemma finditer_admissible kc text v :
  kc ∈ PII_PATTERNS -> v ∈ finditer (pattern kc.2) text ->
  admissible v = true.
Proof.
  intros Hkc Hv. apply (pattern_ok_admissible (pattern kc.2)).
  - pose proof patterns_ok as H. rewrite forallb_forall in H.
    apply (H kc). by apply list_elem_of_In.
  - by eapply finditer_sound.
Qed.

(** ** Redacted texts and the two replacements *)

Lemma bracketed_cons t : bracketed t = "["%char :: (t ++ ["]"%char]).
Proof. done. Qed.

Lemma encodes_mono (m m' : list (str * str)) x y :
  (forall t v, dict_get m t = Some v -> dict_get m' t = Some v) ->
  encodes m x y -> encodes m' x y.
Proof.
  intros Hm. induction 1 as [|c x y Hc _ IH|t v x y Ht Hnb Hv _ IH].
  - constructor.
  - by constructor.
  - constructor; auto.
Qed.

Lemma encodes_chars (m : list (str * str)) s x y :
  no_open s -> encodes m x y -> encodes m (s ++ x) (s ++ y).
Proof.
  unfold no_open. induction s as [|c s IH]; intros Hs H; [done|].
  apply not_elem_of_cons in Hs as [Hc Hs]. simpl.
  constructor; [congruence|by apply IH].
Qed.

Lemma encodes_refl (m : list (str * str)) s : no_open s -> encodes m s s.
Proof.
  intros Hs. rewrite <- (app_nil_r s). apply encodes_chars; [done|constructor].
Qed.

Lemma encodes_cons_inv (m : list (str * str)) c x y :
  c <> "["%char -> encodes m (c :: x) y ->
  exists y', y = c :: y' /\ encodes m x y'.
Proof.
  intros Hc H. remember (c :: x) as z eqn:Hz.
  destruct H as [|c' x' y' Hc' H|t v x' y' Ht Hnb Hv H].
  - done.
  - injection Hz as -> ->. by exists y'.
  - rewrite bracketed_cons in Hz. simpl in Hz. injection Hz as <- _. done.
Qed.

Lemma encodes_prefix_inv (m : list (str * str)) v rest y :
  no_open v -> encodes m (v ++ rest) y ->
  exists y', y = v ++ y' /\ encodes m rest y'.
Proof.
  unfold no_open. revert y. induction v as [|c v IH]; intros y Hv H.
  - by exists y.
  - apply not_elem_of_cons in Hv as [Hc Hv]. simpl in H.
    apply encodes_cons_inv in H as (y1 & -> & H); [|congruence].
    destruct (IH _ Hv H) as (y' & -> & H'). by exists y'.
Qed.

Lemma encodes_nil_inv (m : list (str * str)) y : encodes m [] y -> y = [].
Proof.
  intros H. remember [] as z eqn:Hz.
  destruct H as [| |t v x' y' Ht Hnb Hv H]; [done|done|].
  rewrite bracketed_cons in Hz. done.
Qed.

Lemma encodes_empty_map x y : encodes [] x y -> x = y.
Proof. induction 1 as [|c x y Hc _ IH|t v x y Ht]; [done|by f_equal|done]. Qed.

Lemma bracketed_app t x : bracketed t ++ x = "["%char :: (t ++ "]"%char :: x).
Proof. rewrite bracketed_cons. simpl. by rewrite <- app_assoc. Qed.

(** A value without brackets that is not inside the token leaves the
    token alone. *)
Lemma replace_go_token (v new t x : str) :
  v <> [] -> no_bracket v -> ~ occurs v t ->
  replace_go v new 0 (bracketed t ++ x) =
  bracketed t ++ replace_go v new 0 x.
Proof.
  intros Hne [Hvo Hvc] Hocc. rewrite !bracketed_app.
  assert (replace_go v new 0 ("["%char :: (t ++ "]"%char :: x)) =
          "["%char :: replace_go v new 0 (t ++ "]"%char :: x)) as ->
    by exact (replace_go_separator v new "["%char [] _ Hne Hvo).
  rewrite (replace_go_separator v new "]"%char t x Hne Hvc).
  by rewrite (replace_go_absent v new t Hocc).
Qed.

(** [redact]'s replacement of a value by its token keeps the text a
    redacted form of the same original, as long as the value has no
    bracket and is not found inside a token. *)
Lemma encodes_replace (m m' : list (str * str)) v tok :
  v <> [] -> no_bracket v -> no_bracket tok ->
  (forall t x, dict_get m t = Some x -> ~ occurs v t) ->
  (forall t x, dict_get m t = Some x -> dict_get m' t = Some x) ->
  dict_get m' tok = Some v ->
  forall x y, encodes m x y -> encodes m' (replace x v (bracketed tok)) y.
Proof.
  intros Hne [Hvo Hvc] Htok Hocc Hmono Hget x.
  remember (length x) as n eqn:Hn. revert x Hn.
  induction n as [n IH] using lt_wf_ind. intros x Hn y H.
  rewrite replace_replace_go by done.
  assert (forall x' y', (length x' < n)%nat -> encodes m x' y' ->
            encodes m' (replace_go v (bracketed tok) 0 x') y') as IH'.
  { intros x' y' Hlt H'. rewrite <- replace_replace_go by done.
    by apply (IH (length x')). }
  destruct H as [|c x y Hc H|t u x y Ht Hnb Hu H].
  - constructor.
  - destruct (startswith (c :: x) v) eqn:Hs.
    + apply startswith_inv in Hs as [rest Hs].
      assert (encodes m (v ++ rest) (c :: y)) as H'.
      { rewrite <- Hs. by constructor. }
      apply encodes_prefix_inv in H' as (y' & -> & H'); [|done].
      rewrite Hs, replace_go_match by done.
      apply enc_tok; [done|done|done|]. apply IH'; [|done].
      rewrite Hn, Hs, length_app. destruct v; [done|simpl; lia].
    + rewrite replace_go_nomatch by done. constructor; [done|].
      apply IH'; [|done]. simpl in Hn. lia.
  - rewrite replace_go_token by (try done; by eapply Hocc).
    apply enc_tok; [by eapply Hmono|done|done|].
    apply IH'; [|done].
    rewrite Hn, bracketed_cons. simpl. rewrite !length_app. simpl. lia.
Qed.

Lemma bracketed_startswith_ne t t0 rest :
  no_bracket t -> no_bracket t0 -> t <> t0 ->
  startswith (bracketed t ++ rest) (bracketed t0) = false.
Proof.
  intros [_ Ht] [_ Ht0] Hne.
  destruct (startswith _ _) eqn:Hs; [|done]. exfalso.
  apply startswith_inv in Hs as [s' Hs].
  rewrite !bracketed_cons in Hs. simpl in Hs. injection Hs as Hs.
  rewrite <- !app_assoc in Hs. simpl in Hs.
  apply Hne. clear Hne. revert t0 Ht0 Hs.
  induction t as [|a t IH]; intros t0 Ht0 Hs.
  - destruct t0 as [|b t0]; [done|]. simpl in Hs. injection Hs as <- _.
    destruct Ht0. apply list_elem_of_here.
  - apply not_elem_of_cons in Ht as [Ha Ht].
    destruct t0 as [|b t0]; simpl in Hs.
    + injection Hs as -> _. done.
    + injection Hs as -> Hs. apply not_elem_of_cons in Ht0 as [_ Ht0].
      f_equal. by apply IH.
Qed.

Lemma replace_go_other_token (t t0 v0 x : str) :
  no_bracket t -> no_bracket t0 -> t <> t0 ->
  replace_go (bracketed t0) v0 0 (bracketed t ++ x) =
  bracketed t ++ replace_go (bracketed t0) v0 0 x.
Proof.
  intros Ht Ht0 Hne.
  pose proof (bracketed_startswith_ne t t0 x Ht Ht0 Hne) as Hs.
  rewrite (bracketed_app t x) in *.
  rewrite (replace_go_nomatch _ _ _ _ Hs). f_equal.
  replace (t ++ "]"%char :: x) with ((t ++ ["]"%char]) ++ x)
    by (by rewrite <- app_assoc).
  rewrite (bracketed_cons t0).
  rewrite replace_go_first_absent; [by rewrite (bracketed_cons t)|].
  destruct Ht as [Ho _]. intros Hin. apply elem_of_app in Hin as [Hin|Hin];
    [done|]. by apply list_elem_of_singleton in Hin.
Qed.

(** One step of [restore]: the tokens [t0] are replaced by their value,
    and the text is a redacted form over the rest of the mapping. *)
Lemma encodes_restore_one (m : list (str * str)) t0 v0 x y :
  no_bracket t0 ->
  encodes ((t0, v0) :: m) x y ->
  encodes m (replace x (bracketed t0) v0) y.
Proof.
  intros Ht0. rewrite replace_replace_go by done.
  induction 1 as [|c x y Hc _ IH|t v x y Ht Hnb Hv _ IH].
  - constructor.
  - rewrite replace_go_nomatch; [by constructor|].
    rewrite bracketed_cons. cbn [startswith]. apply andb_false_iff. left.
    apply chr_eqb_neq. congruence.
  - simpl in Ht. destruct (decide (t0 = t)) as [->|Hne].
    + injection Ht as ->. rewrite replace_go_match by done.
      by apply encodes_chars.
    + rewrite replace_go_other_token by (try done; congruence).
      by apply enc_tok.
Qed.

(** All steps of [restore]. *)
Lemma encodes_restore (m : list (str * str)) x y :
  Forall no_bracket (dict_keys m) -> encodes m x y ->
  fold_left (fun restored tv => replace restored (bracketed tv.1) tv.2) m x = y.
Proof.
  revert x. induction m as [|[t0 v0] m IH]; intros x Hk H; simpl.
  - by apply encodes_empty_map.
  - apply Forall_cons in Hk as [Ht0 Hk]. apply IH; [done|].
    by apply encodes_restore_one.
Qed.

(** ** Tokens have no bracket and hold no value *)

Lemma label_in_LABELS kc : kc ∈ PII_PATTERNS -> label kc.2 ∈ LABELS.
Proof.
  intros H. unfold LABELS. apply list_elem_of_further.
  apply list_elem_of_fmap. by exists kc.
Qed.

Lemma person_in_LABELS : py "PERSON" ∈ LABELS.
Proof. apply list_elem_of_here. Qed.

Lemma LABELS_label_ok L : L ∈ LABELS -> label_ok L = true.
Proof.
  intros H. pose proof labels_ok as Hok. rewrite forallb_forall in Hok.
  apply Hok. by apply list_elem_of_In.
Qed.

Lemma label_ok_chars L c :
  label_ok L = true -> c ∈ L ->
  token_chr c = true /\ digit c = false /\ c <> "["%char /\ c <> "]"%char.
Proof.
  unfold label_ok. rewrite forallb_forall. intros H Hc.
  apply list_elem_of_In in Hc. specialize (H c Hc).
  unfold cls_or in H. apply orb_true_iff in H as [H|H].
  - repeat split.
    + unfold token_chr, cls_or. by rewrite H.
    + unfold upper, digit, in_range in *.
      apply andb_true_iff in H as [H1 H2]. apply N.leb_le in H1.
      apply andb_false_iff. right. apply N.leb_gt.
      change (code "A") with 65 in H1. change (code "9") with 57. lia.
    + intros ->. done.
    + intros ->. done.
  - unfold one_of in H. simpl in H. rewrite orb_false_r in H.
    apply chr_eqb_eq in H as ->. done.
Qed.

Lemma digit_chars c :
  digit c = true -> token_chr c = true /\ c <> "["%char /\ c <> "]"%char.
Proof.
  intros H. repeat split.
  - unfold token_chr, cls_or. by rewrite H, orb_true_r.
  - intros ->. done.
  - intros ->. done.
Qed.

(** The characters of a token of one of the categories. *)
Lemma token_chars L n c :
  L ∈ LABELS -> c ∈ token_of L n ->
  token_chr c = true /\ c <> "["%char /\ c <> "]"%char.
Proof.
  intros HL Hc. unfold token_of in Hc.
  apply elem_of_app in Hc as [Hc|Hc].
  - destruct (label_ok_chars L c (LABELS_label_ok _ HL) Hc) as (? & _ & ? & ?).
    done.
  - apply elem_of_app in Hc as [Hc|Hc].
    + change (py "_") with ["_"%char] in Hc.
      apply list_elem_of_singleton in Hc as ->.
      split; [by vm_compute|split; discriminate].
    + apply digit_chars. pose proof (str_N_digits n) as Hd.
      rewrite Forall_forall in Hd. by apply Hd.
Qed.

Lemma token_no_bracket L n : L ∈ LABELS -> no_bracket (token_of L n).
Proof.
  intros HL. split; intros Hc;
    destruct (token_chars L n _ HL Hc) as (_ & ? & ?); done.
Qed.

Lemma count_chr_digit_label L :
  L ∈ LABELS -> count_chr digit L = 0%nat.
Proof.
  intros HL. apply count_chr_none. apply Forall_forall. intros c Hc.
  by destruct (label_ok_chars L c (LABELS_label_ok _ HL) Hc) as (_ & ? & _).
Qed.

(** An admissible value is not inside a token whose number is below
    10^9. *)
Lemma admissible_not_in_token v L n :
  admissible v = true -> L ∈ LABELS -> n < 1000000000 ->
  ~ occurs v (token_of L n).
Proof.
  intros [_ Hv]%andb_true_iff HL Hn Hocc.
  apply orb_true_iff in Hv as [Hv|Hv]; apply Nat.leb_le in Hv.
  - pose proof (count_chr_occurs non_token_chr _ _ Hocc) as Hle.
    unfold non_token_chr in Hle at 2. rewrite count_chr_all in Hle; [lia|].
    apply Forall_forall. intros c Hc.
    by destruct (token_chars L n c HL Hc).
  - pose proof (count_chr_occurs digit _ _ Hocc) as Hle.
    unfold token_of in Hle. rewrite !count_chr_app in Hle.
    rewrite (count_chr_digit_label L HL) in Hle. simpl in Hle.
    pose proof (count_chr_le_length digit (str_N n)) as Hlen.
    pose proof (str_N_length n 9) as H9.
    change (10 ^ N.of_nat 9) with 1000000000 in H9.
    specialize (H9 Hn). lia.
Qed.

Lemma admissible_nonempty v : admissible v = true -> v <> [].
Proof. intros H ->. done. Qed.

Lemma admissible_no_bracket v : admissible v = true -> no_bracket v.
Proof.
  intros [Hv _]%andb_true_iff. rewrite forallb_forall in Hv.
  split; intros Hc; apply list_elem_of_In in Hc; specialize (Hv _ Hc); done.
Qed.

(** ** The labels of a session *)

Lemma tokenize_labelled (s : session) ty v :
  numbered s -> ty ∈ LABELS -> labelled s.1 -> labelled (tokenize s ty v).1.1.
Proof.
  intros Hn Hty Hl. destruct (tokenize_grows s ty v Hn) as [->|(Hv & _ & ->)];
    [done|].
  unfold labelled, dict_keys. rewrite map_app. apply Forall_app. split; [done|].
  constructor; [|constructor]. simpl.
  rewrite (tokenize_new _ _ _ Hv). simpl. by rewrite rsplit_token_of.
Qed.

Lemma labelled_token (s : session) t :
  numbered s -> labelled s.1 -> t ∈ dict_keys s.1 ->
  exists L i, L ∈ LABELS /\ t = token_of L (N.of_nat i) /\
              N.of_nat i <= default 0 (s.2 !! L) /\ (1 <= i)%nat.
Proof.
  intros Hn Hl Ht. destruct (numbered_token_elem _ _ Hn Ht) as (i & Hi & H1 & Hle).
  unfold labelled in Hl. rewrite Forall_forall in Hl.
  exists (rsplit1_0 t), i. split; [|done].
  by apply Hl.
Qed.

Lemma labelled_no_bracket (s : session) :
  numbered s -> labelled s.1 -> Forall no_bracket (dict_keys s.1).
Proof.
  intros Hn Hl. apply Forall_forall. intros t Ht.
  destruct (labelled_token _ _ Hn Hl Ht) as (L & i & HL & -> & _).
  by apply token_no_bracket.
Qed.

Lemma dict_get_key {V} (m : list (str * V)) t x :
  dict_get m t = Some x -> t ∈ dict_keys m.
Proof.
  intros H. destruct (decide (t ∈ dict_keys m)) as [|Hn]; [done|].
  apply dict_get_None in Hn. congruence.
Qed.

(** ** Counters only grow *)

Lemma tokenize_bounded (B : N) (s : session) (ty v : str) :
  bounded B (tokenize s ty v).1.2 -> bounded B s.2.
Proof.
  unfold tokenize. destruct (lookup_value s.1 v) as [[t v']|]; [done|].
  simpl. intros H L c Hc. destruct (decide (ty = L)) as [->|Hne].
  - specialize (H L (c + 1)). rewrite lookup_insert_eq, Hc in H. simpl in H.
    specialize (H eq_refl). lia.
  - apply (H L). by rewrite lookup_insert_ne.
Qed.

Lemma fold_left_back {A B} (ok : B -> Prop) (f : B -> A -> B) l b :
  (forall b x, ok (f b x) -> ok b) -> ok (fold_left f l b) -> ok b.
Proof.
  intros Hf. revert b. induction l as [|x l IH]; intros b H; [done|].
  simpl in H. eauto.
Qed.

Lemma fold_left_inv_back {A B} (P ok : B -> Prop) (f : B -> A -> B) l b :
  (forall b x, ok (f b x) -> ok b) ->
  (forall b x, x ∈ l -> P b -> ok (f b x) -> P (f b x)) ->
  P b -> ok (fold_left f l b) -> P (fold_left f l b).
Proof.
  intros Hback. revert b. induction l as [|x l IH]; intros b Hstep Hb Hok;
    [done|].
  simpl in *. apply IH; [|apply Hstep|done].
  - intros b' y Hy. apply Hstep. by apply list_elem_of_further.
  - apply list_elem_of_here.
  - done.
  - by eapply fold_left_back.
Qed.

(** ** The labels of every reachable session *)

Lemma value_step_labels ty desc v w :
  ty ∈ LABELS -> labels_inv w -> labels_inv (value_step ty desc v w).
Proof.
  intros Hty [Hok Hl]. split; [by apply value_step_ok|].
  unfold value_step. cbn [s_session]. apply tokenize_labelled; [apply Hok|done..].
Qed.

Lemma session_redact_labels names s text :
  session_ok s -> labelled s.1 ->
  labels_inv (session_redact names s text).
Proof.
  intros Hok Hl. unfold session_redact.
  apply (fold_left_inv labels_inv).
  - apply (fold_left_inv labels_inv); [done|].
    intros w name Hw _. unfold name_step.
    destruct (str_in _ _); [|done].
    apply value_step_labels; [apply person_in_LABELS|done].
  - intros w kc Hw Hkc. unfold pattern_step.
    apply (fold_left_inv labels_inv); [done|].
    intros w' v Hw' _. unfold match_step. destruct (_ && _); [done|].
    apply value_step_labels; [by apply label_in_LABELS|done].
Qed.

Lemma wf_labels_start self sid :
  wf_labels self -> labelled (start_session self sid).1.
Proof.
  intros Hl. unfold start_session.
  destruct (session_view self sid) as [[m cs]|] eqn:Hs; simpl.
  - apply session_view_Some in Hs as [Hm _]. by eapply Hl.
  - constructor.
Qed.

Lemma redact_wf_labels names self text sid self' out :
  wf self -> wf_labels self ->
  redact names self text sid = Some (self', out) -> wf_labels self'.
Proof.
  intros Hwf Hl. rewrite redact_wf_view by done.
  destruct text as [|c text]; [by intros [<- _]%Some_pair_inv|].
  cbv zeta.
  pose proof (session_redact_labels names _ (c :: text)
                (wf_start_session_ok self sid Hwf)
                (wf_labels_start self sid Hl)) as [_ Hl'].
  revert Hl'.
  generalize (session_redact names (start_session self sid) (c :: text)).
  intros w Hl' [<- _]%Some_pair_inv sid' m. unfold put_session.
  cbn [redaction_map]. destruct (decide (sid = sid')) as [<-|Hne].
  - rewrite lookup_insert_eq. by intros [= <-].
  - rewrite lookup_insert_ne by done. apply Hl.
Qed.

Lemma reachable_labels names self : reachable names self -> wf_labels self.
Proof.
  induction 1 as [|self text sid self' out Hr IH Hred|self sid _ IH].
  - intros sid m H. simpl in H. by rewrite lookup_empty in H.
  - eapply redact_wf_labels; [by eapply reachable_wf|done..].
  - intros sid' m. destruct (clear_session_maps self sid) as [-> _].
    destruct (decide (sid = sid')) as [<-|Hne].
    + by rewrite lookup_delete_eq.
    + rewrite lookup_delete_ne by done. apply IH.
Qed.

(** ** The round trip *)

Lemma value_step_below ty desc v w : below (value_step ty desc v w) -> below w.
Proof. unfold below, value_step. cbn [s_session]. apply tokenize_bounded. Qed.

Lemma name_step_below w name : below (name_step w name) -> below w.
Proof.
  unfold name_step. destruct (str_in _ _); [apply value_step_below|done].
Qed.

Lemma match_step_below c w v : below (match_step c w v) -> below w.
Proof.
  unfold match_step. destruct (_ && _); [done|apply value_step_below].
Qed.

Lemma pattern_step_below w kc : below (pattern_step w kc) -> below w.
Proof.
  unfold pattern_step. apply fold_left_back. intros. by eapply match_step_below.
Qed.

(** One value replaced by its token. *)
Lemma value_step_roundtrip T ty desc v w :
  admissible v = true -> ty ∈ LABELS ->
  roundtrip_inv T w -> below (value_step ty desc v w) ->
  roundtrip_inv T (value_step ty desc v w).
Proof.
  intros Hv Hty (Hok & Hl & Henc) Hb.
  pose proof Hok as [Hn _].
  pose proof (value_step_below _ _ _ _ Hb) as Hb0.
  destruct (value_step_labels ty desc v w Hty (conj Hok Hl)) as [Hok' Hl'].
  split; [done|]. split; [done|].
  unfold value_step in *. cbn [s_session s_text] in *.
  set (s := s_session w) in *. set (st := tokenize s ty v) in *.
  pose proof (tokenize_get s ty v Hn) as Hget. fold st in Hget.
  apply (encodes_replace s.1 st.1.1 v st.2).
  - by apply admissible_nonempty.
  - by apply admissible_no_bracket.
  - destruct (labelled_token st.1 st.2 (proj1 Hok') Hl'
                (dict_get_key _ _ _ Hget)) as (L & i & HL & -> & _).
    by apply token_no_bracket.
  - intros t x Ht.
    destruct (labelled_token s t Hn Hl (dict_get_key _ _ _ Ht))
      as (L & i & HL & -> & Hle & Hi).
    apply admissible_not_in_token; [done|done|].
    destruct (s.2 !! L) as [c|] eqn:Hc; simpl in Hle; [|lia].
    specialize (Hb0 L c Hc). lia.
  - intros t x. apply dict_get_prefix. by apply tokenize_prefix.
  - done.
  - done.
Qed.

Lemma name_step_roundtrip T w name :
  name ∈ KNOWN_NAMES -> roundtrip_inv T w -> below (name_step w name) ->
  roundtrip_inv T (name_step w name).
Proof.
  intros Hname. unfold name_step. destruct (str_in _ _); [|done].
  apply value_step_roundtrip; [|apply person_in_LABELS].
  pose proof known_names_admissible as H. rewrite forallb_forall in H.
  apply H. by apply list_elem_of_In.
Qed.

Lemma match_step_roundtrip T kc text w v :
  kc ∈ PII_PATTERNS -> v ∈ finditer (pattern kc.2) text ->
  roundtrip_inv T w -> below (match_step kc.2 w v) ->
  roundtrip_inv T (match_step kc.2 w v).
Proof.
  intros Hkc Hv. unfold match_step. destruct (_ && _); [done|].
  apply value_step_roundtrip; [by eapply finditer_admissible|].
  by apply label_in_LABELS.
Qed.

Lemma pattern_step_roundtrip T w kc :
  kc ∈ PII_PATTERNS -> roundtrip_inv T w -> below (pattern_step w kc) ->
  roundtrip_inv T (pattern_step w kc).
Proof.
  intros Hkc. unfold pattern_step.
  apply (fold_left_inv_back (roundtrip_inv T) below).
  - intros. by eapply match_step_below.
  - intros w' v Hv. by apply (match_step_roundtrip T kc (s_text w)).
Qed.

Lemma session_redact_roundtrip s T :
  session_ok s -> labelled s.1 -> no_open T ->
  below (session_redact KNOWN_NAMES s T) ->
  roundtrip_inv T (session_redact KNOWN_NAMES s T).
Proof.
  intros Hok Hl HT. unfold session_redact.
  intros Hb.
  apply (fold_left_inv_back (roundtrip_inv T) below); [| | |done].
  - intros. by eapply pattern_step_below.
  - intros w kc Hkc. by apply pattern_step_roundtrip.
  - apply fold_left_back in Hb; [|intros; by eapply pattern_step_below].
    apply (fold_left_inv_back (roundtrip_inv T) below); [| | |done].
    + intros. by eapply name_step_below.
    + intros w name Hname. by apply name_step_roundtrip.
    + split; [done|]. split; [done|]. by apply encodes_refl.
Qed.

Lemma restore_put_session (self : PIIRedactor) (sid : str) (s : session)
    (x : str) :
  restore (put_session self sid s) x sid =
  match x with
  | [] => []
  | _ :: _ =>
      fold_left (fun restored tv => replace restored (bracketed tv.1) tv.2)
        s.1 x
  end.
Proof.
  unfold restore, put_session. cbn [redaction_map]. rewrite lookup_insert_eq.
  by destruct x.
Qed.

Lemma roundtrip_exists self T sid :
  reachable KNOWN_NAMES self -> no_open T ->
  exists self' redacted md,
    redact KNOWN_NAMES self T sid = Some (self', (redacted, md)) /\
    (counters_below 1000000000 self' sid -> restore self' redacted sid = T).
Proof.
  intros Hr HT. pose proof (reachable_wf _ _ Hr) as Hwf.
  pose proof (reachable_labels _ _ Hr) as Hl.
  rewrite redact_wf_view by done. destruct T as [|c T].
  - exists self, [], ∅. split; [done|]. intros _.
    unfold restore. by destruct (redaction_map self !! sid).
  - cbv zeta.
    pose proof (session_redact_roundtrip (start_session self sid) (c :: T)
                  (wf_start_session_ok self sid Hwf)
                  (wf_labels_start self sid Hl) HT) as Hrt.
    revert Hrt. unfold below.
    generalize (session_redact KNOWN_NAMES (start_session self sid) (c :: T)).
    intros w Hrt. eexists _, _, _. split; [done|]. intros Hb.
    rewrite restore_put_session.
    destruct Hrt as ([Hn _] & Hlab & Henc).
    { apply Hb. unfold put_session. cbn [token_counters].
      by rewrite lookup_insert_eq. }
    destruct (s_text w) as [|c' x] eqn:Hx.
    + by apply encodes_nil_inv in Henc.
    + apply encodes_restore; [|done]. by apply labelled_no_bracket.
Qed.


Lemma bounded_empty (B : N) : bounded B ∅.
Proof. intros L c H. by rewrite lookup_empty in H. Qed.

Lemma bounded_insert (B : N) (cs : gmap str N) (L : str) (c : N) :
  c < B -> bounded B cs -> bounded B (<[L := c]> cs).
Proof.
  intros Hc Hb L' c'. destruct (decide (L = L')) as [<-|Hne].
  - rewrite lookup_insert_eq. by intros [= <-].
  - rewrite lookup_insert_ne by done. apply Hb.
Qed.

Lemma not_elem_of_bool (c : ascii) (s : str) :
  existsb (chr_eqb c) s = false -> c ∉ s.
Proof.
  intros H Hin. apply list_elem_of_In in Hin.
  assert (existsb (chr_eqb c) s = true); [|congruence].
  apply existsb_exists. exists c. split; [done|apply chr_eqb_refl].
Qed.



(** * Further properties *)

(** ** [restore] on texts without tokens *)

Lemma reachable_no_bracket names self sid m :
  reachable names self -> redaction_map self !! sid = Some m ->
  Forall no_bracket (dict_keys m).
Proof.
  intros Hr Hm. destruct (reachable_wf _ _ Hr _ _ Hm) as (cs & _ & Hn & _).
  apply (labelled_no_bracket (m, cs) Hn). by eapply reachable_labels.
Qed.

Lemma restore_encodes names self sid m x y :
  reachable names self -> redaction_map self !! sid = Some m ->
  encodes m x y -> restore self x sid = y.
Proof.
  intros Hr Hm Henc. unfold restore. rewrite Hm. destruct x as [|c x].
  - by apply encodes_nil_inv in Henc.
  - apply encodes_restore; [|done]. by eapply reachable_no_bracket.
Qed.

(** X1.  On every reachable object [restore] returns a text without an
    opening square bracket as it is, whatever the session holds. *)
Theorem restore_without_tokens names self text sid :
  reachable names self -> no_open text -> restore self text sid = text.
Proof.
  intros Hr Ht. destruct (redaction_map self !! sid) as [m|] eqn:Hm.
  - eapply restore_encodes; [done..|]. by apply encodes_refl.
  - by apply restore_unknown.
Qed.

Lemma restore_without_tokens_witness :
  restore sample (py "Madhu is PERSON_1]") (py "s") = py "Madhu is PERSON_1]".
Proof.
  apply (restore_without_tokens KNOWN_NAMES); [apply sample_reachable|].
  apply not_elem_of_bool. vm_compute. reflexivity.
Defined.

(** ** The mapping only grows *)

Lemma redacts_reachable names self self' :
  reachable names self -> redacts names self self' -> reachable names self'.
Proof.
  intros Hr Hrs. induction Hrs as [|self text sid self1 out self2 H _ IH];
    [done|].
  apply IH. by eapply reach_redact.
Qed.

Lemma tokens_of_prefix L (m m' : list (str * str)) :
  m `prefix_of` m' -> (length (tokens_of L m) <= length (tokens_of L m'))%nat.
Proof.
  intros [l ->]. unfold tokens_of, dict_keys.
  rewrite map_app, filter_app, length_app. lia.
Qed.

(** X2.  A [redact] call only appends to the token mappings: in every
    session the mapping before the call is a prefix of the mapping after
    it, so no token is removed or given another value, and no counter
    decreases. *)
Theorem redact_append_only names self text sid self' out B m cs :
  reachable names self ->
  redact names self text sid = Some (self', out) ->
  redaction_map self !! B = Some m ->
  token_counters self !! B = Some cs ->
  exists m' cs',
    redaction_map self' !! B = Some m' /\
    token_counters self' !! B = Some cs' /\
    m `prefix_of` m' /\
    (forall t v, dict_get m t = Some v -> dict_get m' t = Some v) /\
    (forall L, default 0 (cs !! L) <= default 0 (cs' !! L)).
Proof.
  intros Hr Hred Hm Hc. pose proof (reachable_wf _ _ Hr) as Hwf.
  destruct out as [r md].
  destruct (redact_call_ok _ _ _ _ _ _ _ Hwf Hred) as (Hwf' & Hg & _).
  destruct (Hg _ _ Hm) as (m' & Hm' & Hpre).
  destruct (Hwf' _ _ Hm') as (cs' & Hc' & Hn' & _).
  destruct (Hwf _ _ Hm) as (cs0 & Hc0 & Hn & _).
  rewrite Hc in Hc0. injection Hc0 as <-.
  exists m', cs'. repeat split; [done..| |].
  - intros t v. by apply dict_get_prefix.
  - intros L. pose proof (numbered_length (m, cs) L Hn) as H1.
    pose proof (numbered_length (m', cs') L Hn') as H2. simpl in H1, H2.
    rewrite H1, H2.
    pose proof (tokens_of_prefix L m m' Hpre). lia.
Qed.

Lemma redact_append_only_witness :
  exists m' cs',
    redaction_map sample !! py "s" = Some m' /\
    token_counters sample !! py "s" = Some cs' /\
    [(py "PERSON_1", py "Madhu")] `prefix_of` m' /\
    (forall t v, dict_get [(py "PERSON_1", py "Madhu")] t = Some v ->
                 dict_get m' t = Some v) /\
    (forall L, default 0 (({[py "PERSON" := 1]} : gmap str N) !! L)
               <= default 0 (cs' !! L)).
Proof.
  apply (redact_append_only KNOWN_NAMES sample (py "Hi Madhu") (py "s") sample
           (py "Hi [PERSON_1]", sample_redactions) (py "s")).
  - apply sample_reachable.
  - vm_compute. reflexivity.
  - vm_compute. reflexivity.
  - vm_compute. reflexivity.
Defined.

(** ** The matches of the registry *)

Lemma finditer_go_occurs r : forall s skip prev w,
  w ∈ finditer_go r skip prev s -> occurs w s.
Proof.
  induction s as [|c s IH]; intros skip prev w H; cbn [finditer_go] in H.
  - by apply elem_of_nil in H.
  - assert (forall skip' prev', w ∈ finditer_go r skip' prev' s ->
              occurs w (c :: s)) as Htl.
    { intros skip' prev' H'. destruct (IH _ _ _ H') as (a & b & ->).
      by exists (c :: a), b. }
    destruct skip as [|skip]; [|by eapply Htl].
    destruct (mt r prev (c :: s) _) as [rest|] eqn:Hm; [|by eapply Htl].
    cbv zeta in H. apply elem_of_cons in H as [Hw|H]; [|by eapply Htl].
    apply mt_sound in Hm as (w' & s' & p' & Hs & Hw' & [= <-]).
    rewrite Hs, length_app in Hw.
    replace (length w' + length s' - length s')%nat with (length w') in Hw
      by lia.
    rewrite take_app_length in Hw. subst w. rewrite Hs. by exists [], s'.
Qed.

Lemma finditer_occurs r s w : w ∈ finditer r s -> occurs w s.
Proof. apply finditer_go_occurs. Qed.



(** ** What the mapping holds *)

Lemma tokenize_detected (names : list str) (s : session) (ty v : str) :
  numbered s -> detected names v ->
  Forall (fun tv : str * str => detected names tv.2) s.1 ->
  Forall (fun tv : str * str => detected names tv.2) (tokenize s ty v).1.1.
Proof.
  intros Hn Hv Hall.
  destruct (tokenize_grows s ty v Hn) as [->|(_ & _ & ->)]; [done|].
  apply Forall_app. split; [done|]. by constructor.
Qed.

Lemma value_step_detected (names : list str) (ty desc v : str) (w : swork) :
  detected names v -> detected_inv names w ->
  detected_inv names (value_step ty desc v w).
Proof.
  intros Hv [Hok Hall]. split; [by apply value_step_ok|].
  unfold value_step. cbn [s_session].
  apply tokenize_detected; [apply Hok|done..].
Qed.

Lemma session_redact_detected (names : list str) (s : session) (text : str) :
  session_ok s -> Forall (fun tv : str * str => detected names tv.2) s.1 ->
  detected_inv names (session_redact names s text).
Proof.
  intros Hok Hall. unfold session_redact.
  apply (fold_left_inv (detected_inv names)).
  - apply (fold_left_inv (detected_inv names)); [done|].
    intros w name Hw Hname. unfold name_step.
    destruct (str_in _ _); [|done].
    apply value_step_detected; [by left|done].
  - intros w kc Hw Hkc. unfold pattern_step.
    apply (fold_left_inv (detected_inv names)); [done|].
    intros w' v Hw' Hv. unfold match_step. destruct (_ && _); [done|].
    apply value_step_detected; [|done]. right. exists kc.
    split; [done|]. by eapply finditer_sound.
Qed.

Lemma reachable_detected (names : list str) (self : PIIRedactor) :
  reachable names self -> wf_detected names self.
Proof.
  induction 1 as [|self text sid self' out Hr IH Hred|self sid _ IH].
  - intros sid m H. simpl in H. by rewrite lookup_empty in H.
  - pose proof (reachable_wf _ _ Hr) as Hwf. revert Hred.
    rewrite redact_wf_view by done.
    destruct text as [|c text]; [by intros [<- _]%Some_pair_inv|].
    cbv zeta.
    assert (Forall (fun tv : str * str => detected names tv.2)
              (start_session self sid).1) as Hstart.
    { unfold start_session.
      destruct (session_view self sid) as [[m cs]|] eqn:Hs; simpl;
        [|constructor].
      apply session_view_Some in Hs as [Hm _]. by eapply IH. }
    pose proof (session_redact_detected names _ (c :: text)
                  (wf_start_session_ok self sid Hwf) Hstart) as [_ Hd].
    revert Hd.
    generalize (session_redact names (start_session self sid) (c :: text)).
    intros w Hd [<- _]%Some_pair_inv sid' m. unfold put_session.
    cbn [redaction_map]. destruct (decide (sid = sid')) as [<-|Hne].
    + rewrite lookup_insert_eq. by intros [= <-].
    + rewrite lookup_insert_ne by done. apply IH.
  - intros sid' m. destruct (clear_session_maps self sid) as [-> _].
    destruct (decide (sid = sid')) as [<-|Hne].
    + by rewrite lookup_delete_eq.
    + rewrite lookup_delete_ne by done. apply IH.
Qed.



(** ** The round trip, later *)

Lemma redact_encodes self T sid self' r md :
  reachable KNOWN_NAMES self -> no_open T ->
  redact KNOWN_NAMES self T sid = Some (self', (r, md)) ->
  counters_below 1000000000 self' sid ->
  (T = [] /\ r = []) \/
  exists m, redaction_map self' !! sid = Some m /\ encodes m r T.
Proof.
  intros Hr HT. pose proof (reachable_wf _ _ Hr) as Hwf.
  pose proof (reachable_labels _ _ Hr) as Hl.
  rewrite redact_wf_view by done. destruct T as [|c T].
  - intros [_ [<- _]%pair_eq]%Some_pair_inv _. by left.
  - cbv zeta.
    pose proof (session_redact_roundtrip (start_session self sid) (c :: T)
                  (wf_start_session_ok self sid Hwf)
                  (wf_labels_start self sid Hl) HT) as Hrt.
    revert Hrt. unfold below.
    generalize (session_redact KNOWN_NAMES (start_session self sid) (c :: T)).
    intros w Hrt [<- [<- _]%pair_eq]%Some_pair_inv Hb. right.
    exists (s_session w).1. unfold put_session. cbn [redaction_map].
    rewrite lookup_insert_eq. split; [done|]. apply Hrt.
    apply Hb. unfold put_session. cbn [token_counters].
    by rewrite lookup_insert_eq.
Qed.



(** ** A rule for the loops of [redact] *)

(** A property [P] of the working state holds when [redact] is done if
    it holds at the start and every replacement of a value keeps it; the
    value replaced is admissible, the category is one of the registry's,
    and [Q] holds of the value, [Q] following from [P] and the value
    being in the working text when it was looked for. *)
Lemma session_redact_rule (P : swork -> Prop) (Q : str -> Prop) s T :
  (forall w name, name ∈ KNOWN_NAMES -> P w -> below w ->
     str_in name (s_text w) = true -> Q name) ->
  (forall w kc v, kc ∈ PII_PATTERNS -> P w -> below w ->
     v ∈ finditer (pattern kc.2) (s_text w) -> Q v) ->
  (forall ty desc v w, admissible v = true -> ty ∈ LABELS -> Q v -> P w ->
     below (value_step ty desc v w) -> P (value_step ty desc v w)) ->
  P {| s_session := s; s_text := T; s_redactions := ∅ |} ->
  below (session_redact KNOWN_NAMES s T) ->
  P (session_redact KNOWN_NAMES s T).
Proof.
  intros HQn HQm Hstep H0 Hb. unfold session_redact in *.
  apply (fold_left_inv_back P below); [| | |done].
  - intros. by eapply pattern_step_below.
  - intros w kc Hkc Hw Hbw. unfold pattern_step in *.
    pose proof (fold_left_back below _ _ _
                  (fun b x => match_step_below kc.2 b x) Hbw) as Hbw0.
    assert (forall v, v ∈ finditer (pattern kc.2) (s_text w) ->
              Q v /\ admissible v = true) as HQ.
    { intros v Hv. split; [by eapply HQm|by eapply finditer_admissible]. }
    revert HQ Hw Hbw. generalize (finditer (pattern kc.2) (s_text w)).
    intros l HQ Hw Hbw.
    apply (fold_left_inv_back P below); [| |done|done].
    + intros. by eapply match_step_below.
    + intros w' v Hv Hw' Hbw'. unfold match_step in *.
      destruct (_ && _); [done|]. destruct (HQ v Hv) as [HQv Hav].
      apply Hstep; [done|by apply label_in_LABELS|done..].
  - apply fold_left_back in Hb; [|intros; by eapply pattern_step_below].
    apply (fold_left_inv_back P below); [| |done|done].
    + intros. by eapply name_step_below.
    + intros w name Hname Hw Hbw. unfold name_step in *.
      destruct (str_in name (s_text w)) eqn:Hin; [|done].
      apply Hstep; [|apply person_in_LABELS| |done|done].
      * pose proof known_names_admissible as H. rewrite forallb_forall in H.
        apply H. by apply list_elem_of_In.
      * eapply HQn; [done|done| |done]. by eapply value_step_below.
Qed.

(** ** Occurrences *)

Lemma occurs_cons_iff (u y : str) c :
  occurs u (c :: y) <-> startswith (c :: y) u = true \/ occurs u y.
Proof.
  rewrite <- !str_in_occurs. cbn [str_in]. apply orb_true_iff.
Qed.

Lemma occurs_nil_inv (u : str) : occurs u [] -> u = [].
Proof.
  intros (a & b & H). symmetry in H.
  apply app_eq_nil in H as [_ H]. by apply app_eq_nil in H as [H _].
Qed.

Lemma occurs_app_r (u a b : str) : occurs u b -> occurs u (a ++ b).
Proof. intros (p & q & ->). exists (a ++ p), q. by rewrite <- app_assoc. Qed.

Lemma occurs_app_l (u a b : str) : occurs u a -> occurs u (a ++ b).
Proof.
  intros (p & q & ->). exists p, (q ++ b). by rewrite <- !app_assoc.
Qed.

(** An occurrence in a text around a character it does not have lies
    before or after that character. *)
Lemma occurs_split (u a b : str) c :
  c ∉ u -> occurs u (a ++ c :: b) -> occurs u a \/ occurs u b.
Proof.
  intros Hc. induction a as [|x a IH]; intros H.
  - simpl in H. apply occurs_cons_iff in H as [H|H]; [|by right].
    apply startswith_inv in H as [s' H]. destruct u as [|o u].
    + left. by exists [], [].
    + injection H as -> _. destruct Hc. apply list_elem_of_here.
  - change ((x :: a) ++ c :: b) with (x :: (a ++ c :: b)) in H.
    apply occurs_cons_iff in H as [H|H].
    + apply startswith_inv in H as [s' H].
      change (x :: (a ++ c :: b)) with ((x :: a) ++ c :: b) in H.
      destruct (prefix_before _ _ _ _ _ Hc H) as (a2 & -> & _).
      left. by exists [], a2.
    + destruct (IH H) as [H'|H']; [|by right].
      left. by apply (occurs_app_r u [x]).
Qed.

(** Before the first replacement the replaced text is the text. *)
Lemma startswith_replace_go (v tok : str) : forall p x,
  "["%char ∉ p ->
  startswith (replace_go v (bracketed tok) 0 x) p = true ->
  startswith x p = true.
Proof.
  induction p as [|a p IH]; intros x Hp H; [done|].
  apply not_elem_of_cons in Hp as [Ha Hp].
  destruct x as [|c x]; [done|].
  cbn [replace_go] in H. destruct (startswith (c :: x) v) eqn:Hs.
  - rewrite bracketed_cons in H. simpl app in H. cbn [startswith] in H.
    apply andb_true_iff in H as [H _]. apply chr_eqb_eq in H. congruence.
  - cbn [startswith] in *. apply andb_true_iff in H as [Hac H].
    rewrite Hac. simpl. by apply IH.
Qed.

(** A value without bracket that is not inside the token does not occur
    after the replacement, when it is the value replaced or did not
    occur before. *)
Lemma replace_go_removes (u v tok : str) :
  v <> [] -> u <> [] -> no_bracket u -> ~ occurs u tok ->
  forall x, u = v \/ ~ occurs u x ->
    ~ occurs u (replace_go v (bracketed tok) 0 x).
Proof.
  intros Hv Hu [Huo Huc] Htok x.
  remember (length x) as n eqn:Hn. revert x Hn.
  induction n as [n IH] using lt_wf_ind. intros x Hn Hcase Hocc.
  destruct x as [|c x].
  - by apply occurs_nil_inv in Hocc.
  - destruct (startswith (c :: x) v) eqn:Hs.
    + apply startswith_inv in Hs as [rest Hs].
      rewrite Hs, replace_go_match, bracketed_app in Hocc by done.
      apply (occurs_split u [] _ _ Huo) in Hocc as [Hocc|Hocc];
        [by apply occurs_nil_inv in Hocc|].
      apply (occurs_split u tok _ _ Huc) in Hocc as [Hocc|Hocc]; [done|].
      revert Hocc. apply (IH (length rest)); [|done|].
      * rewrite Hn, Hs, length_app. destruct v; [done|simpl; lia].
      * destruct Hcase as [->|Hno]; [by left|]. right. intros Hr.
        apply Hno. rewrite Hs. by apply occurs_app_r.
    + rewrite (replace_go_nomatch _ _ _ _ Hs) in Hocc.
      apply occurs_cons_iff in Hocc as [Hocc|Hocc].
      * destruct u as [|a u]; [done|].
        assert (startswith (c :: x) (a :: u) = true) as Hsu.
        { cbn [startswith] in *. apply andb_true_iff in Hocc as [Hac Hocc].
          rewrite Hac. simpl. apply (startswith_replace_go v tok); [|done].
          by apply not_elem_of_cons in Huo as [_ ?]. }
        destruct Hcase as [<-|Hno]; [congruence|].
        apply Hno. apply startswith_inv in Hsu as [s' ->]. by exists [], s'.
      * revert Hocc. apply (IH (length x)); [simpl in Hn; lia|done|].
        destruct Hcase as [->|Hno]; [by left|]. right.
        by eapply not_occurs_cons.
Qed.

(** A value without bracket in a redacted text, outside the tokens, is
    in the original text. *)
Lemma encodes_occurs (m : list (str * str)) u x y :
  u <> [] -> no_bracket u ->
  (forall t z, dict_get m t = Some z -> ~ occurs u t) ->
  encodes m x y -> occurs u x -> occurs u y.
Proof.
  intros Hu [Huo Huc] Htok Henc.
  induction Henc as [|c x y Hc Henc IH|t v x y Ht Hnb Hv Henc IH]; intros Hocc.
  - done.
  - apply occurs_cons_iff in Hocc as [Hs|Hocc].
    + apply startswith_inv in Hs as [rest Hs].
      assert (encodes m (u ++ rest) (c :: y)) as H'
        by (rewrite <- Hs; by constructor).
      apply encodes_prefix_inv in H' as (y' & -> & _); [|done].
      by exists [], y'.
    + apply (occurs_app_r u [c]). by apply IH.
  - rewrite bracketed_app in Hocc.
    apply (occurs_split u [] _ _ Huo) in Hocc as [Hocc|Hocc];
      [by apply occurs_nil_inv in Hocc|].
    apply (occurs_split u t _ _ Huc) in Hocc as [Hocc|Hocc];
      [by destruct (Htok _ _ Ht)|].
    apply occurs_app_r. by apply IH.
Qed.

(** ** What [redact] returns *)

Lemma value_step_token_clean ty desc v w u :
  ty ∈ LABELS -> labels_inv w -> below (value_step ty desc v w) ->
  admissible u = true ->
  ~ occurs u (tokenize (s_session w) ty v).2.
Proof.
  intros Hty Hinv Hb Hu. pose proof Hinv as [[Hn _] _].
  destruct (value_step_labels ty desc v w Hty Hinv) as [[Hn' _] Hl'].
  unfold value_step, below in *. cbn [s_session] in *.
  pose proof (tokenize_get (s_session w) ty v Hn) as Hget.
  destruct (labelled_token _ _ Hn' Hl' (dict_get_key _ _ _ Hget))
    as (L & i & HL & -> & Hle & Hi).
  apply admissible_not_in_token; [done|done|].
  destruct ((tokenize (s_session w) ty v).1.2 !! L) as [c|] eqn:Hc;
    simpl in Hle; [|lia].
  specialize (Hb L c Hc). lia.
Qed.

Lemma value_step_absent ty desc v w :
  admissible v = true -> ty ∈ LABELS -> absent_inv w ->
  below (value_step ty desc v w) -> absent_inv (value_step ty desc v w).
Proof.
  intros Hv Hty (Hinv & Hadm & Habs) Hb.
  split; [by apply value_step_labels|].
  assert (md_admissible (value_step ty desc v w)) as Hadm'.
  { intros t i. unfold value_step. cbn [s_redactions].
    destruct (decide ((tokenize (s_session w) ty v).2 = t)) as [<-|Hne].
    - rewrite lookup_insert_eq. by intros [= <-].
    - rewrite lookup_insert_ne by done. apply Hadm. }
  split; [done|]. intros t i Hi.
  pose proof (Hadm' t i Hi) as Hu.
  pose proof (value_step_token_clean ty desc v w _ Hty Hinv Hb Hu) as Hclean.
  revert Hi. unfold value_step. cbn [s_redactions s_text].
  rewrite replace_replace_go by by apply admissible_nonempty.
  intros Hi. apply replace_go_removes.
  - by apply admissible_nonempty.
  - by apply admissible_nonempty.
  - by apply admissible_no_bracket.
  - done.
  - destruct (decide ((tokenize (s_session w) ty v).2 = t)) as [<-|Hne].
    + rewrite lookup_insert_eq in Hi. injection Hi as <-. by left.
    + rewrite lookup_insert_ne in Hi by done. right. by eapply Habs.
Qed.



Lemma within_value T w v :
  admissible v = true -> within_inv T w -> below w ->
  occurs v (s_text w) -> occurs v T.
Proof.
  intros Hv [(Hok & Hl & Henc) _] Hb Hocc. pose proof Hok as [Hn _].
  apply (encodes_occurs (s_session w).1 v (s_text w)); [| | |done|done].
  - by apply admissible_nonempty.
  - by apply admissible_no_bracket.
  - intros t z Ht.
    destruct (labelled_token _ _ Hn Hl (dict_get_key _ _ _ Ht))
      as (L & i & HL & -> & Hle & Hi).
    apply admissible_not_in_token; [done|done|].
    destruct ((s_session w).2 !! L) as [c|] eqn:Hc; simpl in Hle; [|lia].
    specialize (Hb L c Hc). lia.
Qed.



(** ** A text without detections *)

Lemma session_redact_nothing (names : list str) (s : session) (T : str) :
  (forall name, name ∈ names -> str_in name T = false) ->
  (forall kc, kc ∈ PII_PATTERNS -> finditer (pattern kc.2) T = []) ->
  session_redact names s T =
  {| s_session := s; s_text := T; s_redactions := ∅ |}.
Proof.
  intros Hn Hp. unfold session_redact.
  set (w0 := {| s_session := s; s_text := T; s_redactions := ∅ |}).
  assert (fold_left name_step names w0 = w0) as ->.
  { induction names as [|name names IH]; [done|]. simpl.
    unfold name_step at 2. cbn [s_text w0].
    rewrite Hn by apply list_elem_of_here.
    apply IH. intros n' Hn'. apply Hn. by apply list_elem_of_further. }
  revert Hp. generalize PII_PATTERNS. intros l Hp.
  induction l as [|kc l IH]; [done|]. simpl.
  unfold pattern_step at 2. cbn [s_text w0].
  rewrite Hp by apply list_elem_of_here. simpl.
  apply IH. intros kc' Hkc'. apply Hp. by apply list_elem_of_further.
Qed.

(** X8.  When no name of the Known-Value List occurs in a non-empty text
    and no pattern matches it, [redact] returns the text as it is with
    empty metadata; the object changes only in that the session now has
    state, empty if it had none, while other sessions are as before. *)
Theorem redact_without_detections names self T sid :
  reachable names self -> T <> [] ->
  (forall name, name ∈ names -> str_in name T = false) ->
  (forall kc, kc ∈ PII_PATTERNS -> finditer (pattern kc.2) T = []) ->
  exists self',
    redact names self T sid = Some (self', (T, ∅)) /\
    redaction_map self' !! sid =
      Some (default [] (redaction_map self !! sid)) /\
    token_counters self' !! sid =
      Some (default ∅ (token_counters self !! sid)) /\
    (forall B, B <> sid ->
       redaction_map self' !! B = redaction_map self !! B /\
       token_counters self' !! B = token_counters self !! B).
Proof.
  intros Hr HT Hn Hp. pose proof (reachable_wf _ _ Hr) as Hwf.
  rewrite (redact_nonempty_view _ _ _ _ _ HT (wf_init_session_view _ _ Hwf)).
  rewrite session_redact_nothing by done. cbn [s_session s_text s_redactions].
  eexists. split; [done|]. unfold put_session, start_session, session_view.
  cbn [redaction_map token_counters]. rewrite !lookup_insert_eq.
  split; [|split].
  - destruct (redaction_map self !! sid) as [m|] eqn:Hm; [|done].
    destruct (Hwf _ _ Hm) as (cs & -> & _). done.
  - destruct (redaction_map self !! sid) as [m|] eqn:Hm.
    + destruct (Hwf _ _ Hm) as (cs & -> & _). done.
    + simpl. destruct (token_counters self !! sid) as [cs|] eqn:Hc; [|done].
      exfalso. revert Hm Hc. clear -Hr. revert sid cs.
      induction Hr as [|self text sid0 self' out Hr IH Hred|self sid0 Hr IH];
        intros sid cs Hm Hc.
      * simpl in Hc. by rewrite lookup_empty in Hc.
      * pose proof (reachable_wf _ _ Hr) as Hwf. revert Hred.
        rewrite redact_wf_view by done.
        destruct text as [|c text];
          [intros [<- _]%Some_pair_inv; by eapply IH|].
        cbv zeta.
        generalize (session_redact names (start_session self sid0) (c :: text)).
        intros w [<- _]%Some_pair_inv. revert Hm Hc. unfold put_session.
        cbn [redaction_map token_counters].
        destruct (decide (sid0 = sid)) as [<-|Hne].
        -- by rewrite lookup_insert_eq.
        -- rewrite !lookup_insert_ne by done. apply IH.
      * destruct (clear_session_maps self sid0) as [Em Ec].
        rewrite Em in Hm. rewrite Ec in Hc.
        destruct (decide (sid0 = sid)) as [<-|Hne].
        -- by rewrite (lookup_delete_eq (token_counters self) sid0) in Hc.
        -- rewrite (lookup_delete_ne (redaction_map self)) in Hm by done.
           rewrite (lookup_delete_ne (token_counters self)) in Hc by done.
           by eapply IH.
  - intros B HB. by rewrite !lookup_insert_ne by done.
Qed.

Lemma redact_without_detections_witness :
  exists self',
    redact KNOWN_NAMES sample (py "hello world") (py "t") =
      Some (self', (py "hello world", ∅)) /\
    redaction_map self' !! py "t" =
      Some (default [] (redaction_map sample !! py "t")) /\
    token_counters self' !! py "t" =
      Some (default ∅ (token_counters sample !! py "t")) /\
    (forall B, B <> py "t" ->
       redaction_map self' !! B = redaction_map sample !! B /\
       token_counters self' !! B = token_counters sample !! B).
Proof.
  apply redact_without_detections.
  - apply sample_reachable.
  - discriminate.
  - intros name Hname. apply list_elem_of_In in Hname.
    repeat (destruct Hname as [<-|Hname]; [vm_compute; reflexivity|]).
    destruct Hname.
  - intros kc Hkc. apply list_elem_of_In in Hkc.
    repeat (destruct Hkc as [<-|Hkc]; [vm_compute; reflexivity|]).
    destruct Hkc.
Defined.

(** ** Statistics *)

Lemma count_types_fold (m : list (str * str)) (acc : gmap str nat) L :
  default 0%nat
    (fold_left
       (fun by_type tv =>
          <[rsplit1_0 tv.1 :=
              (default 0%nat (by_type !! rsplit1_0 tv.1) + 1)%nat]> by_type)
       m acc !! L) =
  (default 0%nat (acc !! L) + length (tokens_of L m))%nat.
Proof.
  revert acc. induction m as [|[t v] m IH]; intros acc; simpl.
  - unfold tokens_of. simpl. lia.
  - rewrite IH. unfold tokens_of, dict_keys. simpl. rewrite filter_cons.
    destruct (decide (has_label L t)) as [HL|HL]; unfold has_label in HL.
    + rewrite HL, lookup_insert_eq. simpl. lia.
    + rewrite lookup_insert_ne by done. lia.
Qed.

Lemma count_types_positive (m : list (str * str)) (acc : gmap str nat) :
  (forall L k, acc !! L = Some k -> (1 <= k)%nat) ->
  forall L k,
    fold_left
      (fun by_type tv =>
         <[rsplit1_0 tv.1 :=
             (default 0%nat (by_type !! rsplit1_0 tv.1) + 1)%nat]> by_type)
      m acc !! L = Some k ->
    (1 <= k)%nat.
Proof.
  revert acc. induction m as [|[t v] m IH]; intros acc Hacc L k; simpl.
  - apply Hacc.
  - apply IH. intros L' k'. destruct (decide (rsplit1_0 t = L')) as [<-|Hne].
    + rewrite lookup_insert_eq. intros [= <-]. lia.
    + rewrite lookup_insert_ne by done. apply Hacc.
Qed.

(** X9.  On a reachable object the statistics of a session agree with
    its state: the total is the number of tokens, and a category is in
    the breakdown exactly when its counter is not 0, with the counter as
    its count.  A token is counted under the category it was minted for,
    also when the label has an underscore. *)
Theorem stats_agree_with_counters names self sid m cs L :
  reachable names self ->
  redaction_map self !! sid = Some m ->
  token_counters self !! sid = Some cs ->
  let st := get_redaction_stats self sid in
  total_redactions st = length m /\
  by_type st !! L =
    (if decide (default 0 (cs !! L) = 0) then None
     else Some (N.to_nat (default 0 (cs !! L)))) /\
  (forall n, rsplit1_0 (token_of L n) = L).
Proof.
  intros Hr Hm Hc st. unfold st, get_redaction_stats. rewrite Hm.
  cbn [total_redactions by_type]. split; [done|]. split.
  - destruct (reachable_wf _ _ Hr _ _ Hm) as (cs' & Hc' & Hn & _).
    rewrite Hc in Hc'. injection Hc' as <-.
    pose proof (numbered_length (m, cs) L Hn) as Hk. simpl in Hk.
    pose proof (count_types_fold m ∅ L) as Hf.
    rewrite lookup_empty in Hf. simpl in Hf. fold (count_types m) in Hf.
    destruct (count_types m !! L) as [k|] eqn:Hk'; simpl in Hf.
    + assert (1 <= k)%nat as Hpos.
      { apply (count_types_positive m ∅) with (L := L); [|done].
        intros L' k'. by rewrite lookup_empty. }
      rewrite decide_False by lia. f_equal. lia.
    + rewrite decide_True by lia. done.
  - intros n. apply rsplit_token_of.
Qed.

Lemma stats_agree_with_counters_witness :
  let st := get_redaction_stats sample (py "s") in
  total_redactions st = length [(py "PERSON_1", py "Madhu")] /\
  by_type st !! py "PERSON" =
    (if decide (default 0 (({[py "PERSON" := 1]} : gmap str N) !! py "PERSON")
                = 0)
     then None
     else Some (N.to_nat
                  (default 0 (({[py "PERSON" := 1]} : gmap str N)
                                !! py "PERSON")))) /\
  (forall n, rsplit1_0 (token_of (py "PERSON") n) = py "PERSON").
Proof.
  apply (stats_agree_with_counters KNOWN_NAMES sample (py "s")).
  - apply sample_reachable.
  - vm_compute. reflexivity.
  - vm_compute. reflexivity.
Defined.

(** ** The advanced redactor without the scanner *)

Section AdvancedFallback.
Variables Vault Risk Exn : Type.
Variable scan : Vault -> str -> Vault * (Exn + (str * bool * Risk)).
Variable vault_len : Vault -> nat.
Variable names : list str.

Lemma do_advanced_call_fallback v fb c :
  do_advanced_call scan vault_len names (with_fallback Vault v fb) c =
  match do_call names fb c with
  | Some (fb', r) => Some (with_fallback Vault v fb', r)
  | None => None
  end.
Proof.
  destruct c as [text sid|text sid|sid|sid|sid]; try done.
  unfold do_advanced_call, do_call, advanced_redact, with_fallback.
  destruct text as [|c text]; [done|].
  cbn [use_llm_guard]. unfold fallback_redact.
  cbn [fallback_redactor use_llm_guard vault].
  generalize (redact names fb (c :: text) sid).
  intros [[fb' [r md]]|]; done.
Qed.

Lemma do_calls_fallback v fb cs :
  do_calls (do_advanced_call scan vault_len names) (with_fallback Vault v fb) cs =
  match do_calls (do_call names) fb cs with
  | Some (fb', rs) => Some (with_fallback Vault v fb', rs)
  | None => None
  end.
Proof.
  revert fb. induction cs as [|c cs IH]; intros fb; [done|].
  cbn [do_calls]. rewrite do_advanced_call_fallback.
  generalize (do_call names fb c). intros [[fb' r]|]; [|done].
  cbn [mbind option_bind]. rewrite IH.
  generalize (do_calls (do_call names) fb' cs). intros [[fb'' rs]|]; done.
Qed.
End AdvancedFallback.

(** X10.  An [AdvancedPIIRedactor] made without the scanner (not asked
    for, or not installed) answers every sequence of [redact],
    [restore], [get_redaction_stats], [export_redaction_map] and
    [clear_session] calls with the results a [PIIRedactor] gives, and
    holds that redactor's state after them. *)
Theorem advanced_without_scanner (Vault Risk Exn : Type) (new_vault : Vault)
    (scan : Vault -> str -> Vault * (Exn + (str * bool * Risk)))
    (vault_len : Vault -> nat) (names : list str)
    (available use : bool) (cs : list call) :
  use && available = false ->
  do_calls (do_advanced_call scan vault_len names)
    (advanced_init Vault new_vault available use) cs =
  match do_calls (do_call names) init cs with
  | Some (fb, rs) =>
      Some ({| use_llm_guard := false; vault := None;
               fallback_redactor := Some fb |}, rs)
  | None => None
  end.
Proof.
  intros H. unfold advanced_init. rewrite H.
  apply (do_calls_fallback Vault Risk Exn scan vault_len names None init cs).
Qed.

Lemma advanced_without_scanner_witness :
  true && false = false /\
  do_calls (@do_advanced_call unit unit unit (fun v _ => (v, inl tt))
              (fun _ => 0%nat) KNOWN_NAMES)
    (advanced_init unit tt false true)
    [CallRedact (py "Madhu") (py "s"); CallRestore (py "[PERSON_1]") (py "s")] =
  match do_calls (do_call KNOWN_NAMES) init
          [CallRedact (py "Madhu") (py "s");
           CallRestore (py "[PERSON_1]") (py "s")] with
  | Some (fb, rs) =>
      Some ({| use_llm_guard := false; vault := None;
               fallback_redactor := Some fb |}, rs)
  | None => None
  end.
Proof.
  split; [reflexivity|].
  apply (advanced_without_scanner unit unit unit tt). reflexivity.
Defined.

(** ** [masking_function] without the scanner *)

Lemma redact_init_text (names : list str) (s sid : str) :
  exists self' md,
    redact names init s sid = Some (self', (redact_fresh names s, md)).
Proof.
  unfold redact_fresh. destruct s as [|c s]; [by eexists _, _|].
  assert (forall sid', session_view (init_session init sid') sid' =
                       Some ([], ∅)) as Hv.
  { intros sid'. by apply session_view_init_fresh. }
  rewrite !(redact_session_view names init c s _ _ (Hv _)). cbv zeta.
  by eexists _, _.
Qed.

Section Masking.
Variables Vault Risk Exn : Type.
Variable new_vault : Vault.
Variable scan : Vault -> str -> Vault * (Exn + (str * bool * Risk)).
Variable names : list str.
Variables Key Other : Type.

Lemma masking_function_string s sid :
  masking_function Vault Risk Exn new_vault scan false names Key Other
    (DStr Key Other s) sid =
  Returns (DStr Key Other (redact_fresh names s)).
Proof.
  cbn [masking_function]. unfold advanced_init.
  rewrite andb_false_r. unfold advanced_redact.
  destruct s as [|c s]; [done|].
  cbn [use_llm_guard]. unfold fallback_redact. cbn [fallback_redactor].
  destruct (redact_init_text names (c :: s) (default (py "default") sid))
    as (self' & md & ->).
  done.
Qed.

Lemma masking_function_fallback : forall d sid,
  masking_function Vault Risk Exn new_vault scan false names Key Other d sid =
  Returns (map_strings Key Other (redact_fresh names) d).
Proof.
  fix IH 1. intros [s|items|items|o] sid.
  - apply masking_function_string.
  - cbn [masking_function map_strings].
    match goal with
    | |- match ?e with _ => _ end = _ =>
        assert (e = Returns (map (fun kv => (kv.1, map_strings Key Other
                                                     (redact_fresh names) kv.2))
                               items)) as ->
    end; [|done].
    induction items as [|[k v] items IHitems]; [done|].
    rewrite (IH v sid). rewrite IHitems. done.
  - cbn [masking_function map_strings].
    match goal with
    | |- match ?e with _ => _ end = _ =>
        assert (e = Returns (map (map_strings Key Other (redact_fresh names))
                               items)) as ->
    end; [|done].
    induction items as [|v items IHitems]; [done|].
    rewrite (IH v sid). rewrite IHitems. done.
  - done.
Qed.
End Masking.


(** ** The advanced redactor with the scanner *)

Section GuardMode.
Variables Vault Risk Exn : Type.
Variable scan : Vault -> str -> Vault * (Exn + (str * bool * Risk)).
Variable vault_len : Vault -> nat.
Variable names : list str.

Lemma guard_object_redact (self : AdvancedPIIRedactor Vault) text sid :
  guard_object self ->
  (exists self' out,
     advanced_redact Vault Risk Exn scan names self text sid =
       Returns (self', out) /\ guard_object self') \/
  text <> [] /\
  advanced_redact Vault Risk Exn scan names self text sid =
    Raises (AttributeError (py "fallback_redactor")).
Proof.
  intros (Hu & [v Hv] & Hf). unfold advanced_redact.
  destruct text as [|c text]; [left; by eexists _, _|].
  rewrite Hu, Hv. destruct (scan v (c :: text)) as [v' [e|[[t valid] risk]]].
  - right. split; [done|]. unfold fallback_redact. cbn [fallback_redactor].
    by rewrite Hf.
  - left. eexists _, _. split; [done|].
    unfold guard_object. cbn [use_llm_guard vault fallback_redactor].
    rewrite ?Hu, ?Hf. split; [done|split; [by eexists|done]].
Qed.
End GuardMode.



(** ** [masking_function] with the scanner *)

Section MaskingGuard.
Variables Vault Risk Exn : Type.
Variable new_vault : Vault.
Variable scan : Vault -> str -> Vault * (Exn + (str * bool * Risk)).
Variable names : list str.
Variables Key Other : Type.

Lemma masking_function_scan_string s sid :
  (forall v e, scan new_vault s <> (v, inl e)) ->
  masking_function Vault Risk Exn new_vault scan true names Key Other
    (DStr Key Other s) sid =
  Returns (DStr Key Other (scanned new_vault scan s)).
Proof.
  intros Hs. cbn [masking_function]. unfold advanced_init, scanned.
  cbn [andb]. unfold advanced_redact. destruct s as [|c s]; [done|].
  cbn [use_llm_guard vault].
  destruct (scan new_vault (c :: s)) as [v' [e|[[t valid] risk]]] eqn:E;
    [|done].
  by destruct (Hs v' e).
Qed.

Lemma masking_function_scan_raises c s sid v e :
  scan new_vault (c :: s) = (v, inl e) ->
  masking_function Vault Risk Exn new_vault scan true names Key Other
    (DStr Key Other (c :: s)) sid =
  Raises (AttributeError (py "fallback_redactor")).
Proof.
  intros Hs. cbn [masking_function]. unfold advanced_init.
  cbn [andb]. unfold advanced_redact. cbn [use_llm_guard vault].
  rewrite Hs. unfold fallback_redact. by cbn [fallback_redactor].
Qed.

Lemma masking_function_scan_all :
  (forall s v e, scan new_vault s <> (v, inl e)) ->
  forall d sid,
  masking_function Vault Risk Exn new_vault scan true names Key Other d sid =
  Returns (map_strings Key Other (scanned new_vault scan) d).
Proof.
  intros Hs. fix IH 1. intros [s|items|items|o] sid.
  - apply masking_function_scan_string. apply Hs.
  - cbn [masking_function map_strings].
    match goal with
    | |- match ?e with _ => _ end = _ =>
        assert (e = Returns (map (fun kv => (kv.1, map_strings Key Other
                                                     (scanned new_vault scan)
                                                     kv.2))
                               items)) as ->
    end; [|done].
    induction items as [|[k v] items IHitems]; [done|].
    rewrite (IH v sid). rewrite IHitems. done.
  - cbn [masking_function map_strings].
    match goal with
    | |- match ?e with _ => _ end = _ =>
        assert (e = Returns (map (map_strings Key Other
                                    (scanned new_vault scan)) items)) as ->
    end; [|done].
    induction items as [|v items IHitems]; [done|].
    rewrite (IH v sid). rewrite IHitems. done.
  - done.
Qed.
End MaskingGuard.



(** X14.  With the scanner installed, a scan that raises on a string
    that is not empty makes [masking_function] raise [AttributeError],
    also when the string is the first item of a list: no partly masked
    data is returned. *)
Theorem masking_function_scan_failure (Vault Risk Exn : Type)
    (new_vault : Vault)
    (scan : Vault -> str -> Vault * (Exn + (str * bool * Risk)))
    (names : list str) (Key Other : Type)
    (c : ascii) (s : str) (v : Vault) (e : Exn)
    (items : list (data Key Other)) (session_id : option str) :
  scan new_vault (c :: s) = (v, inl e) ->
  masking_function Vault Risk Exn new_vault scan true names Key Other
    (DStr Key Other (c :: s)) session_id =
  Raises (AttributeError (py "fallback_redactor")) /\
  masking_function Vault Risk Exn new_vault scan true names Key Other
    (DList Key Other (DStr Key Other (c :: s) :: items)) session_id =
  Raises (AttributeError (py "fallback_redactor")).
Proof.
  intros Hs.
  pose proof (masking_function_scan_raises Vault Risk Exn new_vault scan
                names Key Other c s session_id v e Hs) as H.
  split; [done|].
  cbn [masking_function] in *. by rewrite H.
Qed.

Lemma masking_function_scan_failure_witness :
  (fun (v : unit) (_ : str) => (v, @inl unit (str * bool * unit) tt)) tt
    (py "Madhu") = (tt, inl tt) /\
  masking_function unit unit unit tt (fun v _ => (v, inl tt)) true
    KNOWN_NAMES nat unit (DStr nat unit (py "Madhu")) None =
  Raises (AttributeError (py "fallback_redactor")).
Proof.
  split; [reflexivity|].
  apply (proj1 (masking_function_scan_failure unit unit unit tt
                  (fun v _ => (v, inl tt)) KNOWN_NAMES nat unit
                  "M"%char (py "adhu") tt tt [] None eq_refl)).
Defined.

(** ** Tokens in a text, and the exported mapping *)

Lemma reachable_admissible self sid m t v :
  reachable KNOWN_NAMES self -> redaction_map self !! sid = Some m ->
  (t, v) ∈ m -> admissible v = true.
Proof.
  intros Hr Hm Hin.
  pose proof (reachable_detected _ _ Hr _ _ Hm) as Hd.
  rewrite Forall_forall in Hd. specialize (Hd _ Hin). simpl in Hd.
  destruct Hd as [Hname|(kc & Hkc & Hl)].
  - pose proof known_names_admissible as H. rewrite forallb_forall in H.
    apply H. by apply list_elem_of_In.
  - apply (pattern_ok_admissible (pattern kc.2)); [|done].
    pose proof patterns_ok as H. rewrite forallb_forall in H.
    apply (H kc). by apply list_elem_of_In.
Qed.



(** X16.  After [redact] of a text that is not empty, on an object
    reached with the source's Known-Value List,
    [export_redaction_map] of the session is not the empty dictionary:
    its mapping holds every token the call reported with the reported
    original value, no token and no value twice, and its statistics
    count the tokens of that mapping. *)
Theorem export_after_redact self text sid self' r md :
  reachable KNOWN_NAMES self -> text <> [] ->
  redact KNOWN_NAMES self text sid = Some (self', (r, md)) ->
  exists m,
    export_redaction_map self' sid =
      Export sid m {| total_redactions := length m;
                      by_type := count_types m |} /\
    (forall t i, md !! t = Some i -> dict_get m t = Some (original i)) /\
    NoDup (dict_keys m) /\ NoDup (map snd m).
Proof.
  intros Hr Hne Hred. pose proof (reachable_wf _ _ Hr) as Hwf.
  destruct (redact_call_ok _ _ _ _ _ _ _ Hwf Hred) as (Hwf' & _ & Hmd).
  assert (is_Some (redaction_map self' !! sid)) as [m Hm].
  { revert Hred. rewrite redact_wf_view by done.
    destruct text as [|c text]; [done|]. cbv zeta.
    generalize (session_redact KNOWN_NAMES (start_session self sid)
                  (c :: text)).
    intros w [<- _]%Some_pair_inv. unfold put_session. cbn [redaction_map].
    rewrite lookup_insert_eq. by eexists. }
  exists m. rewrite Hm in Hmd. simpl in Hmd.
  destruct (Hwf' _ _ Hm) as (cs & _ & Hn & Hv).
  split; [|split; [done|split; [|done]]].
  - unfold export_redaction_map, get_redaction_stats. by rewrite Hm.
  - apply (numbered_NoDup (m, cs) Hn).
Qed.

Lemma export_after_redact_witness :
  exists m,
    export_redaction_map sample (py "s") =
      Export (py "s") m {| total_redactions := length m;
                           by_type := count_types m |} /\
    (forall t i, sample_redactions !! t = Some i ->
                 dict_get m t = Some (original i)) /\
    NoDup (dict_keys m) /\ NoDup (map snd m).
Proof.
  apply (export_after_redact init (py "Madhu") (py "s") sample
           (py "[PERSON_1]") sample_redactions).
  - apply reach_init.
  - discriminate.
  - vm_compute. reflexivity.
Defined.
